(** * SILValue.h: values, result handles, operands and use lists

    A shallow embedding of [include/swift/SIL/SILValue.h].

    - Pointers are machine addresses, kept as [Z] in the range of a 64-bit
      [uintptr_t]; the null pointer is address [0].
    - [llvm::PointerIntPair] words are kept as the integer they pack, with
      the bit operations written out.
    - Objects live in a store of two finite maps (one per class); a read
      or write through a null or dangling pointer has no defined result
      and is modelled as [None].
    - [Operand::Back] has type [Operand **]: it holds the address of a
      pointer field, either the [FirstUse] member of a [ValueBase] or the
      [NextUse] member of an [Operand]. *)

From Stdlib Require Import ZArith Lia.
From stdpp Require Import base option list gmap.

Local Open Scope Z_scope.

(** ** Machine words *)

Definition uintptr_bits : Z := 64.
Definition unsigned_bits : Z := 32.

(** Truncation to the width of [uintptr_t]. *)
Definition wrap_ptr (z : Z) : Z := z mod 2 ^ uintptr_bits.

(** Truncation to the width of [size_t] (the same width). *)
Definition wrap_size (z : Z) : Z := z mod 2 ^ uintptr_bits.

(** Truncation to the width of [unsigned]. *)
Definition wrap_unsigned (z : Z) : Z := z mod 2 ^ unsigned_bits.

(** An address an object of class type can have: in range and aligned to
    (at least) four bytes, which is what [PointerLikeTypeTraits<T*>]
    promises with its two free low bits. *)
Definition ptr_ok (p : Z) : Prop := 0 <= p < 2 ^ uintptr_bits /\ p mod 4 = 0.

(** A value an [unsigned] parameter can take. *)
Definition unsigned_ok (n : Z) : Prop := 0 <= n < 2 ^ unsigned_bits.

(** [enum { ValueResultNumberBits = 1 }] *)
Definition ValueResultNumberBits : Z := 1.

(** ** llvm::PointerIntPair<T*, ValueResultNumberBits>

    The class template is LLVM's ([llvm/ADT/PointerIntPair.h]); this
    header only instantiates it.  Its layout: the pointer keeps the high
    bits of the word, the integer sits in the highest of the pointer's
    [NumLowBitsAvailable] free low bits, and the bits below the integer
    stay free.  The library's own assertions on its arguments are left
    out, so the stores below are the unchecked ones. *)
Module PointerIntPair.

(** Modelled from the spec: [PointerLikeTypeTraits<T*>::NumLowBitsAvailable]
    of LLVM, the number of low bits a pointer to a class object leaves
    free; the handle packs its "small unsigned integer bounded by a fixed
    bit width" into them. *)
Definition NumLowBitsAvailable : Z := 2.
Definition IntBits : Z := ValueResultNumberBits.

(** Modelled from the spec: the masks and the shift of LLVM's
    [PointerIntPair], which decide where in the word the result number of
    a handle is kept ("packed-pointer/tag-bit tricks used for compact
    storage"). *)
Definition PointerBitMask : Z :=
  wrap_ptr (Z.lnot (Z.shiftl 1 NumLowBitsAvailable - 1)).
Definition IntShift : Z := NumLowBitsAvailable - IntBits.
Definition IntMask : Z := Z.shiftl 1 IntBits - 1.
Definition ShiftedIntMask : Z := wrap_ptr (Z.shiftl IntMask IntShift).

(** Modelled from the spec: [PointerIntPair::getPointer], the identity
    part of the packed word. *)
Definition getPointer (Value : Z) : Z := Z.land Value PointerBitMask.

(** Modelled from the spec: [PointerIntPair::getInt], the result-number
    part of the packed word. *)
Definition getInt (Value : Z) : Z :=
  Z.land (Z.shiftr Value IntShift) IntMask.

(** Modelled from the spec: [PointerIntPair::setPointerAndInt] (and the
    two-argument constructor), which packs a pointer and a number. *)
Definition setPointerAndInt (PtrWord IntWord : Z) : Z :=
  wrap_ptr (Z.lor PtrWord (Z.shiftl IntWord IntShift)).

(** Modelled from the spec: [PointerIntPair::setPointer], which keeps the
    low bits of the word and replaces the pointer. *)
Definition setPointer (Value PtrWord : Z) : Z :=
  wrap_ptr (Z.lor PtrWord (Z.land Value (Z.lnot PointerBitMask))).

(** Modelled from the spec: the opaque word of a pair and the comparison
    of two pairs, which is the comparison of their words. *)
Definition getOpaqueValue (Value : Z) : Z := Value.
Definition getFromOpaqueValue (p : Z) : Z := p.
Definition eqb (L R : Z) : bool := L =? R.

End PointerIntPair.

(** ** class SILValue *)
Module SILValue.

Record t : Type := Build { ValueAndResultNumber : Z }.

(** [SILValue(void *p)] (private) *)
Definition ofOpaque (p : Z) : t :=
  Build (PointerIntPair.getFromOpaqueValue p).

Definition getDef (v : t) : Z :=
  PointerIntPair.getPointer (ValueAndResultNumber v).

Definition getResultNumber (v : t) : Z :=
  PointerIntPair.getInt (ValueAndResultNumber v).

(** [SILValue(const ValueBase *V = 0, unsigned ResultNumber = 0)]:
    the member initialiser packs the two arguments, then the body
    asserts that the number reads back; [None] is the failed
    assertion ["Overflow"]. *)
Definition ctor (V ResultNumber : Z) : option t :=
  let v := Build (PointerIntPair.setPointerAndInt V ResultNumber) in
  if ResultNumber =? getResultNumber v then Some v else None.

(** [operator==] *)
Definition eqb (L R : t) : bool :=
  PointerIntPair.eqb (ValueAndResultNumber L) (ValueAndResultNumber R).

(** [operator!=] *)
Definition neqb (L R : t) : bool := negb (eqb L R).

Definition getOpaqueValue (v : t) : Z :=
  PointerIntPair.getOpaqueValue (ValueAndResultNumber v).

Definition getFromOpaqueValue (p : Z) : t := ofOpaque p.

(** [operator<]: the two opaque [void *] words, compared as addresses. *)
Definition ltb (L R : t) : bool :=
  getOpaqueValue L <? getOpaqueValue R.

Definition isValid (v : t) : bool := negb (getDef v =? 0).

(** The words the public constructor produces: in range, and with the
    bit below the result number clear. *)
Definition handle_ok (v : t) : Prop :=
  0 <= ValueAndResultNumber v < 2 ^ uintptr_bits
  /\ ValueAndResultNumber v mod 2 = 0.

End SILValue.

(** ** llvm::DenseMapInfo<swift::SILValue> *)
Section DenseMapInfo.

(** [llvm::DenseMapInfo<swift::ValueBase*>::getHashValue], from LLVM. *)
Variable PtrHash : Z -> Z.

Definition getHashValue (V : SILValue.t) : Z := PtrHash (SILValue.getDef V).

Definition isEqual (LHS RHS : SILValue.t) : bool := SILValue.eqb LHS RHS.

End DenseMapInfo.

(** ** TailAllocatedOperandList<N>::getExtraSize *)
Module TailAllocatedOperandList.

Section Sizes.

(** [sizeof(Operand)], which the compiler fixes. *)
Variable sizeof_Operand : Z.

(** The primary template: [sizeof(Operand) * numExtra] in [size_t]. *)
Definition getExtraSize_primary (numExtra : Z) : Z :=
  wrap_size (sizeof_Operand * numExtra).

(** The explicit specialisation [TailAllocatedOperandList<0>]:
    [sizeof(Operand) * (numExtra > 0 ? numExtra - 1 : 0)]; the
    subtraction is on [unsigned]. *)
Definition getExtraSize_0 (numExtra : Z) : Z :=
  wrap_size (sizeof_Operand *
             (if 0 <? numExtra then wrap_unsigned (numExtra - 1) else 0)).

(** [TailAllocatedOperandList<N>::getExtraSize]: template instantiation
    picks the specialisation for [N = 0]. *)
Definition getExtraSize (N : nat) (numExtra : Z) : Z :=
  match N with
  | O => getExtraSize_0 numExtra
  | S _ => getExtraSize_primary numExtra
  end.

(** Bytes of the member [Buffer]: [Operand Buffer[N]], and
    [Operand Buffer[1]] in the specialisation. *)
Definition sizeof_Buffer (N : nat) : Z :=
  match N with
  | O => sizeof_Operand * 1
  | S _ => sizeof_Operand * Z.of_nat N
  end.

End Sizes.

End TailAllocatedOperandList.

(** ** The object store *)

(** The target of an [Operand **]: the address of a pointer member. *)
Inductive UseSlot : Type :=
| FirstUseOf (V : Z)     (* [&V->FirstUse] *)
| NextUseOf (Op : Z).    (* [&Op->NextUse] *)

(** [class ValueBase]; of its members only [FirstUse] is read or written
    by this header ([TypeOrTypeList] and [Kind] are set once by the
    derived classes and only handed back). *)
Record ValueBase : Type := mkValueBase { FirstUse : Z }.

(** [class Operand] *)
Record OperandRec : Type := mkOperand {
  TheValue : SILValue.t;
  NextUse : Z;
  Back : option UseSlot;
  Owner : Z
}.

Record Store : Type := mkStore {
  values : gmap Z ValueBase;
  operands : gmap Z OperandRec
}.

(** Reading through a pointer: null and dangling pointers give [None]. *)
Definition deref {A : Type} (m : gmap Z A) (p : Z) : option A :=
  if decide (p = 0) then None else m !! p.

(** [*s] for [s : Operand **]. *)
Definition load_slot (H : Store) (s : UseSlot) : option Z :=
  match s with
  | FirstUseOf V => FirstUse <$> deref (values H) V
  | NextUseOf Op => NextUse <$> deref (operands H) Op
  end.

(** Member stores [p->NextUse = n], [p->Back = b], [p->TheValue = v] and
    [V->FirstUse = f]. *)
Definition store_NextUse (p n : Z) (H : Store) : option Store :=
  o ← deref (operands H) p;
  Some (mkStore (values H)
          (<[p := mkOperand (TheValue o) n (Back o) (Owner o)]> (operands H))).

Definition store_Back (p : Z) (b : option UseSlot) (H : Store) : option Store :=
  o ← deref (operands H) p;
  Some (mkStore (values H)
          (<[p := mkOperand (TheValue o) (NextUse o) b (Owner o)]> (operands H))).

Definition store_TheValue (p : Z) (v : SILValue.t) (H : Store) : option Store :=
  o ← deref (operands H) p;
  Some (mkStore (values H)
          (<[p := mkOperand v (NextUse o) (Back o) (Owner o)]> (operands H))).

Definition store_FirstUse (V f : Z) (H : Store) : option Store :=
  _ ← deref (values H) V;
  Some (mkStore (<[V := mkValueBase f]> (values H)) (operands H)).

(** ** class Operand *)
Module Operand.

(** [SILValue get() const] *)
Definition get (H : Store) (this : Z) : option SILValue.t :=
  TheValue <$> deref (operands H) this.

(** [ValueBase *getUser()] *)
Definition getUser (H : Store) (this : Z) : option Z :=
  Owner <$> deref (operands H) this.

(** [void removeFromCurrent()]:
<<
    if (!Back) return;
    ( *Back )->NextUse = NextUse;
    if (NextUse) NextUse->Back = Back;
>> *)
Definition removeFromCurrent (this : Z) (H : Store) : option Store :=
  o ← deref (operands H) this;
  match Back o with
  | None => Some H
  | Some b =>
      p ← load_slot H b;
      H1 ← store_NextUse p (NextUse o) H;
      o1 ← deref (operands H1) this;
      if NextUse o1 =? 0 then Some H1
      else store_Back (NextUse o1) (Back o1) H1
  end.

(** [void insertIntoCurrent()]:
<<
    Back = &TheValue->FirstUse;
    NextUse = TheValue->FirstUse;
    if (NextUse) NextUse->Back = &NextUse;
    TheValue->FirstUse = this;
>> *)
Definition insertIntoCurrent (this : Z) (H : Store) : option Store :=
  o ← deref (operands H) this;
  let V := SILValue.getDef (TheValue o) in
  _ ← deref (values H) V;
  H1 ← store_Back this (Some (FirstUseOf V)) H;
  f ← load_slot H1 (FirstUseOf V);
  H2 ← store_NextUse this f H1;
  o2 ← deref (operands H2) this;
  H3 ← (if NextUse o2 =? 0 then Some H2
        else store_Back (NextUse o2) (Some (NextUseOf this)) H2);
  store_FirstUse V this H3.

(** Placement of a new object at [this] with the default member
    initialisers [NextUse = nullptr] and [Back = nullptr]. *)
Definition place (this owner : Z) (v : SILValue.t) (H : Store) : option Store :=
  if decide (this = 0) then None
  else Some (mkStore (values H)
               (<[this := mkOperand v 0 None owner]> (operands H))).

(** [Operand(ValueBase *owner)]: [TheValue] is the default [SILValue()]. *)
Definition ctor_unlinked (this owner : Z) (H : Store) : option Store :=
  v ← SILValue.ctor 0 0;
  place this owner v H.

(** [Operand(ValueBase *owner, SILValue theValue)] *)
Definition ctor (this owner : Z) (theValue : SILValue.t) (H : Store)
  : option Store :=
  H1 ← place this owner theValue H;
  insertIntoCurrent this H1.

(** [void set(SILValue newValue)] *)
Definition set (this : Z) (newValue : SILValue.t) (H : Store) : option Store :=
  H1 ← removeFromCurrent this H;
  H2 ← store_TheValue this newValue H1;
  insertIntoCurrent this H2.

(** [~Operand()], after which the object's lifetime has ended. *)
Definition dtor (this : Z) (H : Store) : option Store :=
  H1 ← removeFromCurrent this H;
  Some (mkStore (values H1) (delete this (operands H1))).

End Operand.

(** Enough steps to walk any chain of distinct live operands. *)
Definition walk_fuel (H : Store) : nat := S (size (operands H)).
Arguments walk_fuel : simpl never.

(** ** class ValueBaseUseIterator and ValueBase's use queries *)
Module ValueBaseUseIterator.

(** The iterator is its cursor [Cur]. *)
Definition deref_it (Cur : Z) : Z := Cur.

(** [operator++]: [assert(Cur); Cur = Cur->NextUse;] *)
Definition incr (H : Store) (Cur : Z) : option Z :=
  NextUse <$> deref (operands H) Cur.

Definition eqb (lhs rhs : Z) : bool := lhs =? rhs.

(** [for (it = b; it != e; ++it) yield *it]. *)
Fixpoint range (fuel : nat) (H : Store) (it e : Z) : option (list Z) :=
  match fuel with
  | O => None
  | S fuel' =>
      if eqb it e then Some []
      else it' ← incr H it;
           rest ← range fuel' H it' e;
           Some (deref_it it :: rest)
  end.

End ValueBaseUseIterator.

Module ValueBase.

(** [bool use_empty() const { return FirstUse == nullptr; }] *)
Definition use_empty (H : Store) (V : Z) : option bool :=
  vb ← deref (values H) V;
  Some (FirstUse vb =? 0).

Definition use_begin (H : Store) (V : Z) : option Z :=
  FirstUse <$> deref (values H) V.

Definition use_end : Z := 0.

(** The operands a loop over [getUses()] visits, in order. *)
Definition getUses (H : Store) (V : Z) : option (list Z) :=
  b ← use_begin H V;
  ValueBaseUseIterator.range (walk_fuel H) H b use_end.

End ValueBase.

(** ** class ValueUseIterator and SILValue's use queries *)
Module ValueUseIterator.

(** The iterator is its word [CurAndResultNumber]. *)

(** The loop of the constructor:
    [while (cur && cur->get().getResultNumber() != resultNumber)
       cur = cur->NextUse;] *)
Fixpoint skip (fuel : nat) (H : Store) (cur resultNumber : Z) : option Z :=
  match fuel with
  | O => None
  | S fuel' =>
      if cur =? 0 then Some cur
      else o ← deref (operands H) cur;
           if negb (SILValue.getResultNumber (TheValue o) =? resultNumber)
           then skip fuel' H (NextUse o) resultNumber
           else Some cur
  end.

(** [ValueUseIterator(Operand *cur, unsigned resultNumber)] *)
Definition ctor (H : Store) (cur resultNumber : Z) : option Z :=
  cur' ← skip (walk_fuel H) H cur resultNumber;
  Some (PointerIntPair.setPointerAndInt cur' resultNumber).

(** [operator*] *)
Definition deref_it (it : Z) : Z := PointerIntPair.getPointer it.

(** The loop of [operator++]:
    [while ((next = next->NextUse)) if (... == getInt()) break;] *)
Fixpoint advance (fuel : nat) (H : Store) (next resultNumber : Z)
  : option Z :=
  match fuel with
  | O => None
  | S fuel' =>
      o ← deref (operands H) next;
      let next' := NextUse o in
      if next' =? 0 then Some next'
      else o' ← deref (operands H) next';
           if SILValue.getResultNumber (TheValue o') =? resultNumber
           then Some next'
           else advance fuel' H next' resultNumber
  end.

(** [operator++] *)
Definition incr (H : Store) (it : Z) : option Z :=
  let next := PointerIntPair.getPointer it in
  if next =? 0 then None
  else next' ← advance (walk_fuel H) H next (PointerIntPair.getInt it);
       Some (PointerIntPair.setPointer it next').

(** [operator==] *)
Definition eqb (lhs rhs : Z) : bool :=
  PointerIntPair.getPointer lhs =? PointerIntPair.getPointer rhs.

(** [operator!=] *)
Definition neqb (lhs rhs : Z) : bool := negb (eqb lhs rhs).

(** [for (it = b; it != e; ++it) yield *it]. *)
Fixpoint range (fuel : nat) (H : Store) (it e : Z) : option (list Z) :=
  match fuel with
  | O => None
  | S fuel' =>
      if eqb it e then Some []
      else it' ← incr H it;
           rest ← range fuel' H it' e;
           Some (deref_it it :: rest)
  end.

End ValueUseIterator.

Module SILValueUses.

(** [ValueUseIterator(this->getDef()->FirstUse, getResultNumber())] *)
Definition use_begin (H : Store) (v : SILValue.t) : option Z :=
  vb ← deref (values H) (SILValue.getDef v);
  ValueUseIterator.ctor H (FirstUse vb) (SILValue.getResultNumber v).

(** [ValueUseIterator(nullptr, 0)] *)
Definition use_end (H : Store) : option Z := ValueUseIterator.ctor H 0 0.

(** [use_begin() == use_end()] *)
Definition use_empty (H : Store) (v : SILValue.t) : option bool :=
  b ← use_begin H v;
  e ← use_end H;
  Some (ValueUseIterator.eqb b e).

(** The operands a loop over [getUses()] visits, in order. *)
Definition getUses (H : Store) (v : SILValue.t) : option (list Z) :=
  b ← use_begin H v;
  e ← use_end H;
  ValueUseIterator.range (walk_fuel H) H b e.

End SILValueUses.

(** ** Vocabulary of the statements *)

(** [chain ops p us]: following [NextUse] from the pointer [p] visits
    exactly the operands [us], each of them live, and then reaches the
    null pointer. *)
Fixpoint chain (ops : gmap Z OperandRec) (p : Z) (us : list Z) : bool :=
  match us with
  | [] => p =? 0
  | a :: t =>
      (p =? a) &&
      match deref ops a with
      | Some o => chain ops (NextUse o) t
      | None => false
      end
  end.

(** [us] is what is linked into the use list of the live value [V]. *)
Definition use_list (H : Store) (V : Z) (us : list Z) : bool :=
  match deref (values H) V with
  | Some vb => chain (operands H) (FirstUse vb) us
  | None => false
  end.

(** [p->get().getResultNumber() == i] *)
Definition targets_result (H : Store) (i p : Z) : bool :=
  match Operand.get H p with
  | Some v => SILValue.getResultNumber v =? i
  | None => false
  end.

(** One construction [new (addr) Operand(owner, value)]. *)
Record NewOperand : Type := mkNew {
  new_addr : Z;
  new_owner : Z;
  new_value : SILValue.t
}.

(** A run of constructions, first to last. *)
Fixpoint construct_all (l : list NewOperand) (H : Store) : option Store :=
  match l with
  | [] => Some H
  | e :: l' =>
      H1 ← Operand.ctor (new_addr e) (new_owner e) (new_value e) H;
      construct_all l' H1
  end.

(** The operands of a run that target [V], most recently constructed
    first. *)
Definition linked_to (V : Z) (l : list NewOperand) : list Z :=
  rev (new_addr <$> filter (λ e, SILValue.getDef (new_value e) = V) l).

(** A store in which no operand has been constructed yet. *)
Definition fresh_store (H : Store) : Prop :=
  operands H = ∅ /\ map_Forall (λ _ vb, FirstUse vb = 0) (values H).

(** A construction at a usable address, targeting a live value. *)
Definition new_ok (H : Store) (e : NewOperand) : Prop :=
  ptr_ok (new_addr e) /\ new_addr e <> 0
  /\ is_Some (deref (values H) (SILValue.getDef (new_value e))).

Definition run_ok (H : Store) (l : list NewOperand) : Prop :=
  NoDup (new_addr <$> l) /\ Forall (new_ok H) l.

(** The links of one operand are sound: [NextUse] is null or live, and a
    non-null [Back] addresses a pointer that points at the operand. *)
Definition operand_linked (H : Store) (p : Z) (o : OperandRec) : bool :=
  ((NextUse o =? 0) || bool_decide (is_Some (deref (operands H) (NextUse o))))
  && match Back o with
     | None => true
     | Some b => bool_decide (load_slot H b = Some p)
     end.

Definition value_linked (H : Store) (vb : ValueBase) : bool :=
  (FirstUse vb =? 0) || bool_decide (is_Some (deref (operands H) (FirstUse vb))).

(** No object sits at the null address, and all links are sound. *)
Definition well_linked (H : Store) : Prop :=
  operands H !! 0 = None
  /\ map_Forall (λ _ vb, value_linked H vb = true) (values H)
  /\ map_Forall (λ p o, operand_linked H p o = true) (operands H).

(** The pointers the unlinking of the operand at [this] follows are
    live: the operand itself and, if its [Back] is not null, the operand
    that [*Back] points at and the one [NextUse] points at (if any). *)
Definition unlink_ready (H : Store) (this : Z) : Prop :=
  exists o,
    deref (operands H) this = Some o
    /\ match Back o with
       | None => True
       | Some b =>
           (exists p, load_slot H b = Some p
                      /\ is_Some (deref (operands H) p))
           /\ (NextUse o = 0 \/ is_Some (deref (operands H) (NextUse o)))
       end.

(** The value [V] is live and its head pointer is null or live. *)
Definition link_ready (H : Store) (V : Z) : Prop :=
  exists vb,
    deref (values H) V = Some vb
    /\ (FirstUse vb = 0 \/ is_Some (deref (operands H) (FirstUse vb))).

(** What a run [l] of constructions has made of the store: the live
    operands are among those of the run, they sit at usable addresses,
    and every value heads the chain of the run's operands that target
    it. *)
Definition run_inv (l : list NewOperand) (H : Store) : Prop :=
  (forall p, is_Some (operands H !! p) -> p ∈ new_addr <$> l)
  /\ (forall p, is_Some (operands H !! p) -> ptr_ok p)
  /\ (forall V vb, values H !! V = Some vb ->
        chain (operands H) (FirstUse vb) (linked_to V l) = true).

(** ** Scenario stores *)

(** One value at address [4096] and no operand. *)
Definition store_V : Store := mkStore {[ 4096 := mkValueBase 0 ]} ∅.

(** Handles of results 0 and 1 of that value. *)
Definition V_0 : SILValue.t := SILValue.Build 4096.
Definition V_1 : SILValue.t := SILValue.Build 4098.

(** Scenario B: three operands at [8192], [8224], [8256], constructed in
    that order, targeting results 0, 1 and 0. *)
Definition scenario_B : list NewOperand :=
  [ mkNew 8192 512 V_0; mkNew 8224 512 V_1; mkNew 8256 512 V_0 ].

(** A second value at [4160], and the handle of its result 0. *)
Definition store_VW : Store :=
  mkStore {[ 4096 := mkValueBase 0; 4160 := mkValueBase 0 ]} ∅.
Definition W_0 : SILValue.t := SILValue.Build 4160.

(** Scenario A: one operand at [8192] targeting result 0 of the value. *)
Definition store_A : Store :=
  default store_V (Operand.ctor 8192 512 V_0 store_V).

(** The same with the second value present. *)
Definition store_A2 : Store :=
  default store_VW (Operand.ctor 8192 512 V_0 store_VW).

(** The store scenario B leaves. *)
Definition store_B : Store :=
  default store_V (construct_all scenario_B store_V).

(** A single operand, targeting result 1 of the value. *)
Definition store_R1 : Store :=
  default store_V (Operand.ctor 8224 512 V_1 store_V).

(** Three values at [4096], [4160] and [4224], no operand, and the
    handle of result 0 of the third. *)
Definition store_VWX : Store :=
  mkStore {[ 4096 := mkValueBase 0; 4160 := mkValueBase 0;
             4224 := mkValueBase 0 ]} ∅.
Definition X_0 : SILValue.t := SILValue.Build 4224.

(** Scenario B on the three values, followed by retargeting the middle
    operand to the second value and the newest operand to the third. *)
Definition retargeted : option Store :=
  H0 ← construct_all scenario_B store_VWX;
  H1 ← Operand.set 8224 W_0 H0;
  Operand.set 8256 X_0 H1.

(** ** Pointer-like traits and map sentinels of SILValue *)

(** [llvm::PointerLikeTypeTraits<swift::SILValue>] *)
Module PointerLikeTypeTraits.

Definition getAsVoidPointer (v : SILValue.t) : Z := SILValue.getOpaqueValue v.

Definition getFromVoidPointer (p : Z) : SILValue.t :=
  SILValue.getFromOpaqueValue p.

(** [enum { NumLowBitsAvailable = 2 - swift::ValueResultNumberBits }] *)
Definition NumLowBitsAvailable : Z := 2 - ValueResultNumberBits.

End PointerLikeTypeTraits.

Section DenseMapInfoKeys.

(** [llvm::DenseMapInfo<swift::ValueBase*>::getEmptyKey()] and
    [getTombstoneKey()], two pointer values LLVM reserves. *)
Variable PtrEmptyKey : Z.
Variable PtrTombstoneKey : Z.

(** Both return a [ValueBase *] where a [SILValue] is expected, so the
    converting constructor [SILValue(V, 0)] runs. *)
Definition getEmptyKey : option SILValue.t := SILValue.ctor PtrEmptyKey 0.

Definition getTombstoneKey : option SILValue.t :=
  SILValue.ctor PtrTombstoneKey 0.

End DenseMapInfoKeys.

(** ** llvm::ArrayRef<Operand> *)
Module ArrayRef.

(** Modelled from the spec: LLVM's [ArrayRef], a pointer to the first
    element and a count; the header uses it for "the full edge array" of
    an operand list. *)
Record t : Type := Build { Data : Z; Length : Z }.

Section Elements.

(** The size of one element in bytes. *)
Variable elem_size : Z.

Definition size (a : t) : Z := Length a.

Definition empty (a : t) : bool := Length a =? 0.

Definition begin (a : t) : Z := Data a.

(** [end()]: [Data + Length] in units of elements. *)
Definition end_ (a : t) : Z := Data a + elem_size * Length a.

(** Modelled from the spec: [operator[]], "indexing", which asserts that
    the index is below the length; the result is the element's address. *)
Definition index (a : t) (i : Z) : option Z :=
  if i <? Length a then Some (Data a + elem_size * i) else None.

(** Modelled from the spec: [front()] and [back()], "front/back access",
    which assert that the array is not empty. *)
Definition front (a : t) : option Z :=
  if empty a then None else Some (Data a).

Definition back (a : t) : option Z :=
  if empty a then None else Some (Data a + elem_size * (Length a - 1)).

(** Modelled from the spec: [slice(N, M)], "slicing", which asserts
    [N + M <= size()] (the sum taken in [unsigned]) and keeps [M]
    elements from the [N]-th on. *)
Definition slice (a : t) (N M : Z) : option t :=
  if wrap_unsigned (N + M) <=? Length a
  then Some (Build (Data a + elem_size * N) M)
  else None.

End Elements.

End ArrayRef.

(** ** class OperandValueArrayRef *)
Module OperandValueArrayRef.

Section Sized.

Variable sizeof_Operand : Z.

(** The adapter is the [ArrayRef<Operand>] it wraps. *)

Definition size (a : ArrayRef.t) : Z := ArrayRef.size a.

Definition empty (a : ArrayRef.t) : bool := ArrayRef.empty a.

(** [SILValue operator[](unsigned i) const { return Operands[i].get(); }] *)
Definition index (H : Store) (a : ArrayRef.t) (i : Z) : option SILValue.t :=
  p ← ArrayRef.index sizeof_Operand a i;
  Operand.get H p.

(** [front()] and [back()] *)
Definition front (H : Store) (a : ArrayRef.t) : option SILValue.t :=
  p ← ArrayRef.front a;
  Operand.get H p.

Definition back (H : Store) (a : ArrayRef.t) : option SILValue.t :=
  p ← ArrayRef.back sizeof_Operand a;
  Operand.get H p.

(** [slice(unsigned begin, unsigned length)] *)
Definition slice (a : ArrayRef.t) (b length : Z) : option ArrayRef.t :=
  ArrayRef.slice sizeof_Operand a b length.

(** The nested [iterator] is its pointer [Ptr]:
    [operator*] is [assert(Ptr); return Ptr->get();], [operator++] steps
    to the next element, [operator==] compares the pointers. *)
Definition it_deref (H : Store) (Ptr : Z) : option SILValue.t :=
  Operand.get H Ptr.

Definition it_incr (Ptr : Z) : Z := Ptr + sizeof_Operand.

Definition it_eqb (lhs rhs : Z) : bool := lhs =? rhs.

Definition begin (a : ArrayRef.t) : Z := ArrayRef.begin a.

Definition end_ (a : ArrayRef.t) : Z := ArrayRef.end_ sizeof_Operand a.

(** [for (it = b; it != e; ++it) yield *it]. *)
Fixpoint range (fuel : nat) (H : Store) (it e : Z)
  : option (list SILValue.t) :=
  match fuel with
  | O => None
  | S fuel' =>
      if it_eqb it e then Some []
      else v ← it_deref H it;
           rest ← range fuel' H (it_incr it) e;
           Some (v :: rest)
  end.

(** The handles a loop from [begin()] to [end()] visits, in order. *)
Definition elements (H : Store) (a : ArrayRef.t) : option (list SILValue.t) :=
  range (S (Z.to_nat (ArrayRef.Length a))) H (begin a) (end_ a).

End Sized.

End OperandValueArrayRef.

(** ** Operand lists *)

(** The constructions [new (p) Operand(user, v)] for the handles [args]
    at consecutive element addresses from [p] on, first to last. *)
Fixpoint slots (sizeof_Operand p user : Z) (args : list SILValue.t)
  : list NewOperand :=
  match args with
  | [] => []
  | v :: rest =>
      mkNew p user v :: slots sizeof_Operand (p + sizeof_Operand) user rest
  end.

(** ** template <unsigned N> class FixedOperandList *)
Module FixedOperandList.

Section Sized.

Variable sizeof_Operand : Z.

(** The list is its member [Buffer], given by the address of
    [Buffer[0]].

    [FixedOperandList(ValueBase *user, T&&...args)
       : Buffer{ { user, std::forward<T>(args) }... }]
    with [static_assert(sizeof...(args) == N)]: the elements are
    constructed in index order; a wrong number of initialisers is
    rejected ([None]). *)
Definition ctor (N : nat) (Buffer user : Z) (args : list SILValue.t)
    (H : Store) : option Store :=
  if decide (length args = N)
  then construct_all (slots sizeof_Operand Buffer user args) H
  else None.

(** [asArray()] *)
Definition asArray (N : nat) (Buffer : Z) : ArrayRef.t :=
  ArrayRef.Build Buffer (Z.of_nat N).

(** [asValueArray()] *)
Definition asValueArray (N : nat) (Buffer : Z) : ArrayRef.t :=
  asArray N Buffer.

(** [Operand &operator[](unsigned i) { return asArray()[i]; }] *)
Definition index (N : nat) (Buffer i : Z) : option Z :=
  ArrayRef.index sizeof_Operand (asArray N Buffer) i.

End Sized.

End FixedOperandList.

(** ** The members of TailAllocatedOperandList<N> *)
Module TailAllocatedOperands.

(** The list object: the member [NumExtra] and the address of
    [Buffer[0]]. *)
Record t : Type := Build { NumExtra : Z; Buffer : Z }.

Section Sized.

Variable sizeof_Operand : Z.

(** The primary template's constructor:
    [NumExtra(dynamicArgs.size())], then the [N] fixed operands in
    [Buffer], then the dynamic ones from [Buffer + N] on. *)
Definition ctor_primary (N : nat) (buf user : Z)
    (dynamicArgs fixedArgs : list SILValue.t) (H : Store)
  : option (t * Store) :=
  if decide (length fixedArgs = N)
  then
    H1 ← construct_all (slots sizeof_Operand buf user fixedArgs) H;
    H2 ← construct_all
           (slots sizeof_Operand (buf + sizeof_Operand * Z.of_nat N) user
              dynamicArgs) H1;
    Some (Build (wrap_unsigned (Z.of_nat (length dynamicArgs))) buf, H2)
  else None.

(** The constructor of the specialisation for zero static operands:
    the dynamic operands from [Buffer] on. *)
Definition ctor_0 (buf user : Z) (dynamicArgs : list SILValue.t) (H : Store)
  : option (t * Store) :=
  H1 ← construct_all (slots sizeof_Operand buf user dynamicArgs) H;
  Some (Build (wrap_unsigned (Z.of_nat (length dynamicArgs))) buf, H1).

(** [TailAllocatedOperandList<N>(user, dynamicArgs, fixedArgs...)] *)
Definition ctor (N : nat) (buf user : Z)
    (dynamicArgs fixedArgs : list SILValue.t) (H : Store)
  : option (t * Store) :=
  match N with
  | O => if decide (fixedArgs = []) then ctor_0 buf user dynamicArgs H
         else None
  | S _ => ctor_primary N buf user dynamicArgs fixedArgs H
  end.

(** [asArray()]: [(Buffer, N+NumExtra)], and [(Buffer, NumExtra)] in the
    specialisation; the sum is taken in [unsigned]. *)
Definition asArray (N : nat) (l : t) : ArrayRef.t :=
  match N with
  | O => ArrayRef.Build (Buffer l) (NumExtra l)
  | S _ => ArrayRef.Build (Buffer l)
             (wrap_unsigned (Z.of_nat N + NumExtra l))
  end.

(** [getDynamicAsArray()]: [(Buffer+N, NumExtra)], and
    [(Buffer, NumExtra)] in the specialisation. *)
Definition getDynamicAsArray (N : nat) (l : t) : ArrayRef.t :=
  match N with
  | O => ArrayRef.Build (Buffer l) (NumExtra l)
  | S _ => ArrayRef.Build (Buffer l + sizeof_Operand * Z.of_nat N)
             (NumExtra l)
  end.

(** [asValueArray()] and [getDynamicValuesAsArray()] *)
Definition asValueArray (N : nat) (l : t) : ArrayRef.t := asArray N l.

Definition getDynamicValuesAsArray (N : nat) (l : t) : ArrayRef.t :=
  getDynamicAsArray N l.

(** [Operand &operator[](unsigned i) { return asArray()[i]; }] *)
Definition index (N : nat) (l : t) (i : Z) : option Z :=
  ArrayRef.index sizeof_Operand (asArray N l) i.

End Sized.

End TailAllocatedOperands.

(** * Properties *)

(** ** Arithmetic reading of the packed word *)

Lemma PointerBitMask_val :
  PointerIntPair.PointerBitMask = Z.land (Z.lnot (Z.ones 2)) (Z.ones 64).
Proof. reflexivity. Qed.

Lemma getPointer_div (w : Z) :
  0 <= w < 2 ^ uintptr_bits -> PointerIntPair.getPointer w = 4 * (w / 4).
Proof.
  intros Hw. unfold PointerIntPair.getPointer.
  rewrite PointerBitMask_val, (Z.land_comm (Z.lnot _)), Z.land_assoc.
  rewrite (Z.land_ones w 64) by lia.
  rewrite (Z.mod_small w) by exact Hw.
  change (Z.land w (Z.lnot (Z.ones 2))) with (Z.ldiff w (Z.ones 2)).
  rewrite Z.ldiff_ones_r by lia.
  rewrite Z.shiftl_mul_pow2, Z.shiftr_div_pow2 by lia.
  change (2 ^ 2) with 4. lia.
Qed.

Lemma getInt_div (w : Z) : PointerIntPair.getInt w = (w / 2) mod 2.
Proof.
  unfold PointerIntPair.getInt.
  change PointerIntPair.IntMask with (Z.ones 1).
  change PointerIntPair.IntShift with 1.
  rewrite Z.land_ones by lia. rewrite Z.shiftr_div_pow2 by lia.
  reflexivity.
Qed.

Lemma getInt_range (w : Z) : 0 <= PointerIntPair.getInt w < 2.
Proof. rewrite getInt_div. apply Z.mod_pos_bound. lia. Qed.

Lemma land_aligned_2 (p : Z) : p mod 4 = 0 -> Z.land p 2 = 0.
Proof.
  intros Hp. apply Z.bits_inj'. intros n Hn.
  rewrite Z.land_spec, Z.bits_0.
  destruct (decide (n = 1)) as [->|Hne].
  - replace (Z.testbit p 1) with false; [reflexivity|].
    symmetry. apply Z.testbit_false; [lia|].
    change (2 ^ 1) with 2. revert Hp. Z.div_mod_to_equations. lia.
  - change 2 with (2 ^ 1). rewrite (Z.pow2_bits_false 1 n) by lia.
    apply andb_false_r.
Qed.

Lemma lor_aligned (p n : Z) :
  p mod 4 = 0 -> 0 <= n < 2 -> Z.lor p (2 * n) = p + 2 * n.
Proof.
  intros Ha Hn. assert (n = 0 \/ n = 1) as [->| ->] by lia.
  - rewrite Z.lor_0_r. lia.
  - change (2 * 1) with 2.
    rewrite <- Z.lxor_lor by (apply land_aligned_2; exact Ha).
    rewrite <- Z.add_nocarry_lxor by (apply land_aligned_2; exact Ha).
    reflexivity.
Qed.

Lemma setPointerAndInt_add (p n : Z) :
  ptr_ok p -> 0 <= n < 2 ->
  PointerIntPair.setPointerAndInt p n = p + 2 * n.
Proof.
  intros [Hr Ha] Hn. unfold PointerIntPair.setPointerAndInt, wrap_ptr.
  change PointerIntPair.IntShift with 1.
  rewrite Z.shiftl_mul_pow2 by lia. change (2 ^ 1) with 2.
  rewrite (Z.mul_comm n 2), lor_aligned by assumption.
  apply Z.mod_small. unfold uintptr_bits in *.
  revert Ha. Z.div_mod_to_equations. lia.
Qed.

Lemma low_bits_keep (w : Z) :
  0 <= w < 2 ^ uintptr_bits ->
  Z.land w (Z.lnot PointerIntPair.PointerBitMask) = w mod 4.
Proof.
  intros Hw. rewrite PointerBitMask_val.
  change 4 with (2 ^ 2). rewrite <- Z.land_ones by lia.
  apply Z.bits_inj'. intros n Hn.
  rewrite !Z.land_spec, Z.lnot_spec, Z.land_spec, Z.lnot_spec by lia.
  destruct (Z.lt_ge_cases n 2) as [Hlt|Hge].
  - rewrite (Z.ones_spec_low 2 n) by lia. simpl. reflexivity.
  - rewrite (Z.ones_spec_high 2 n) by lia. simpl.
    destruct (Z.lt_ge_cases n 64) as [Hlt|Hhi].
    + rewrite (Z.ones_spec_low 64 n) by lia. simpl. reflexivity.
    + rewrite <- (Z.mod_small w (2 ^ 64)) by exact Hw.
      rewrite Z.mod_pow2_bits_high by lia. reflexivity.
Qed.

Lemma setPointer_add (p n q : Z) :
  ptr_ok p -> ptr_ok q -> 0 <= n < 2 ->
  PointerIntPair.setPointer (p + 2 * n) q = q + 2 * n.
Proof.
  intros [Hp Hpa] [Hq Hqa] Hn. unfold PointerIntPair.setPointer, wrap_ptr.
  unfold uintptr_bits in *.
  rewrite low_bits_keep
    by (unfold uintptr_bits; revert Hpa; Z.div_mod_to_equations; lia).
  replace ((p + 2 * n) mod 4) with (2 * n)
    by (revert Hpa; Z.div_mod_to_equations; lia).
  rewrite lor_aligned by assumption.
  apply Z.mod_small. revert Hqa. Z.div_mod_to_equations. lia.
Qed.

Lemma getPointer_packed (p n : Z) :
  ptr_ok p -> 0 <= n < 2 -> PointerIntPair.getPointer (p + 2 * n) = p.
Proof.
  intros [Hp Hpa] Hn. unfold uintptr_bits in *.
  rewrite getPointer_div
    by (unfold uintptr_bits; revert Hpa; Z.div_mod_to_equations; lia).
  revert Hpa. Z.div_mod_to_equations. lia.
Qed.

Lemma getInt_packed (p n : Z) :
  ptr_ok p -> 0 <= n < 2 -> PointerIntPair.getInt (p + 2 * n) = n.
Proof.
  intros [Hp Hpa] Hn. rewrite getInt_div.
  revert Hpa. Z.div_mod_to_equations. lia.
Qed.

Lemma ptr_ok_0 : ptr_ok 0.
Proof. unfold ptr_ok, uintptr_bits. split; [lia | reflexivity]. Qed.

(** ** Result handles *)

(** The constructor's range on aligned pointers is [handle_ok]. *)
Lemma ctor_handle_ok (V n : Z) (h : SILValue.t) :
  ptr_ok V -> SILValue.ctor V n = Some h -> SILValue.handle_ok h.
Proof.
  intros HV. unfold SILValue.ctor.
  destruct (Z.eqb_spec n
    (SILValue.getResultNumber
       (SILValue.Build (PointerIntPair.setPointerAndInt V n)))) as [E|]; [|discriminate].
  intros [= <-].
  assert (Hn : 0 <= n < 2) by (rewrite E; apply getInt_range).
  unfold SILValue.handle_ok. simpl.
  rewrite setPointerAndInt_add by assumption.
  destruct HV as [Hr Ha]. unfold uintptr_bits in *.
  revert Ha. Z.div_mod_to_equations. lia.
Qed.

Lemma handle_ok_ctor (h : SILValue.t) :
  SILValue.handle_ok h ->
  ptr_ok (SILValue.getDef h) /\
  SILValue.ctor (SILValue.getDef h) (SILValue.getResultNumber h) = Some h.
Proof.
  destruct h as [w]. unfold SILValue.handle_ok. simpl. intros [Hw He].
  unfold SILValue.getDef, SILValue.getResultNumber. simpl.
  assert (Hp : ptr_ok (PointerIntPair.getPointer w)).
  { rewrite getPointer_div by exact Hw. unfold ptr_ok, uintptr_bits in *.
    Z.div_mod_to_equations. lia. }
  split; [exact Hp|].
  unfold SILValue.ctor.
  rewrite setPointerAndInt_add by (auto using getInt_range).
  assert (Hw' : PointerIntPair.getPointer w + 2 * PointerIntPair.getInt w = w).
  { rewrite getPointer_div, getInt_div by exact Hw.
    revert He. Z.div_mod_to_equations. lia. }
  rewrite Hw'. unfold SILValue.getResultNumber. simpl.
  rewrite Z.eqb_refl. reflexivity.
Qed.

(** On an aligned pointer and a number that fits, construction succeeds
    with the packed word. *)
Lemma ctor_packed (V n : Z) :
  ptr_ok V -> 0 <= n < 2 ->
  SILValue.ctor V n = Some (SILValue.Build (V + 2 * n)).
Proof.
  intros HV Hn. unfold SILValue.ctor, SILValue.getResultNumber. simpl.
  rewrite setPointerAndInt_add, getInt_packed by assumption.
  rewrite Z.eqb_refl. reflexivity.
Qed.

Lemma ctor_overflow (V n : Z) : 2 <= n -> SILValue.ctor V n = None.
Proof.
  intros Hn. unfold SILValue.ctor.
  destruct (Z.eqb_spec n
    (SILValue.getResultNumber
       (SILValue.Build (PointerIntPair.setPointerAndInt V n)))) as [E|];
    [|reflexivity].
  exfalso. unfold SILValue.getResultNumber in E. simpl in E.
  pose proof (getInt_range (PointerIntPair.setPointerAndInt V n)). lia.
Qed.

(** C5: the constructor's assertion fails for every result number that
    needs more than [ValueResultNumberBits] bits (2 or more), and for the
    numbers 0 and 1 construction succeeds and the handle reads back the
    number (and the pointer) it was built from. *)
Theorem SILValue_ctor_result_number :
  (forall V n : Z, 2 <= n -> SILValue.ctor V n = None)
  /\ (forall V n : Z, ptr_ok V -> 0 <= n < 2 ->
        exists h, SILValue.ctor V n = Some h
                  /\ SILValue.getResultNumber h = n
                  /\ SILValue.getDef h = V).
Proof.
  split.
  - exact ctor_overflow.
  - intros V n HV Hn. exists (SILValue.Build (V + 2 * n)).
    split; [apply ctor_packed; assumption|].
    unfold SILValue.getResultNumber, SILValue.getDef. simpl.
    rewrite getInt_packed, getPointer_packed by assumption. auto.
Qed.

Lemma SILValue_ctor_result_number_witness :
  SILValue.ctor 4096 2 = None
  /\ exists h, SILValue.ctor 4096 1 = Some h
               /\ SILValue.getResultNumber h = 1
               /\ SILValue.getDef h = 4096.
Proof.
  split.
  - apply (proj1 SILValue_ctor_result_number). lia.
  - apply (proj2 SILValue_ctor_result_number).
    + unfold ptr_ok, uintptr_bits. split; [lia | reflexivity].
    + lia.
Defined.

(** C7: on handles, [operator==] holds exactly when the identity pointers
    and the result numbers agree, and [operator<] is the lexicographic
    order on (identity address, result number): irreflexive, transitive
    and total. *)
Theorem SILValue_compare (a b c : SILValue.t) :
  SILValue.handle_ok a -> SILValue.handle_ok b -> SILValue.handle_ok c ->
  (SILValue.eqb a b = true <->
     SILValue.getDef a = SILValue.getDef b
     /\ SILValue.getResultNumber a = SILValue.getResultNumber b)
  /\ (SILValue.ltb a b = true <->
        SILValue.getDef a < SILValue.getDef b
        \/ (SILValue.getDef a = SILValue.getDef b
            /\ SILValue.getResultNumber a < SILValue.getResultNumber b))
  /\ SILValue.ltb a a = false
  /\ (SILValue.ltb a b = true -> SILValue.ltb b c = true ->
      SILValue.ltb a c = true)
  /\ (SILValue.ltb a b = true \/ SILValue.eqb a b = true
      \/ SILValue.ltb b a = true).
Proof.
  destruct a as [x], b as [y], c as [z].
  unfold SILValue.handle_ok, SILValue.eqb, SILValue.ltb, SILValue.getDef,
    SILValue.getResultNumber, SILValue.getOpaqueValue,
    PointerIntPair.eqb, PointerIntPair.getOpaqueValue. simpl.
  intros [Hx Hxe] [Hy Hye] [Hz Hze].
  rewrite !getPointer_div, !getInt_div by assumption.
  rewrite Z.eqb_eq, !Z.ltb_lt, Z.ltb_ge.
  revert Hxe Hye Hze. Z.div_mod_to_equations. lia.
Qed.

Lemma SILValue_compare_witness :
  SILValue.ltb V_0 V_1 = true /\ SILValue.eqb V_0 V_1 = false.
Proof.
  assert (ok : forall w, 0 <= w < 2 ^ 64 -> w mod 2 = 0 ->
                         SILValue.handle_ok (SILValue.Build w))
    by (intros w ? ?; split; assumption).
  destruct (SILValue_compare V_0 V_1 (SILValue.Build 8192))
    as (_ & Hlt & _); [apply ok; [lia|reflexivity] ..|].
  split; [|reflexivity].
  apply Hlt. right. split; reflexivity.
Defined.

(** ** Tail-allocated operand lists *)

(** C6: for [numExtra] dynamic operands the primary template (one or
    more static operands) asks for [sizeof(Operand) * numExtra] extra
    bytes; the specialisation for zero static operands asks for
    [sizeof(Operand) * (numExtra - 1)] when [numExtra > 0] and for nothing
    when [numExtra = 0], so that together with its one-element [Buffer]
    the storage holds exactly [numExtra] operands. *)
Theorem getExtraSize_accounting (sizeof_Operand : Z) (N : nat) (k : Z) :
  0 < sizeof_Operand < 2 ^ unsigned_bits -> unsigned_ok k ->
  (N <> 0%nat ->
     TailAllocatedOperandList.getExtraSize sizeof_Operand N k
     = sizeof_Operand * k)
  /\ (0 < k ->
        TailAllocatedOperandList.getExtraSize sizeof_Operand 0 k
        = sizeof_Operand * (k - 1))
  /\ (k = 0 -> TailAllocatedOperandList.getExtraSize sizeof_Operand 0 k = 0)
  /\ (0 < k ->
        TailAllocatedOperandList.sizeof_Buffer sizeof_Operand 0
        + TailAllocatedOperandList.getExtraSize sizeof_Operand 0 k
        = sizeof_Operand * k).
Proof.
  unfold unsigned_ok, unsigned_bits. intros Hs Hk.
  assert (H0 : 0 < k ->
    TailAllocatedOperandList.getExtraSize sizeof_Operand 0 k
    = sizeof_Operand * (k - 1)).
  { intros Hpos. simpl.
    unfold TailAllocatedOperandList.getExtraSize_0, wrap_size, wrap_unsigned,
      uintptr_bits, unsigned_bits.
    destruct (Z.ltb_spec 0 k) as [_|]; [|lia].
    rewrite (Z.mod_small (k - 1)) by lia.
    apply Z.mod_small. nia. }
  repeat split.
  - intros HN. destruct N as [|N']; [congruence|]. simpl.
    unfold TailAllocatedOperandList.getExtraSize_primary, wrap_size,
      uintptr_bits.
    apply Z.mod_small. nia.
  - exact H0.
  - intros ->. simpl.
    unfold TailAllocatedOperandList.getExtraSize_0, wrap_size.
    simpl. rewrite Z.mul_0_r. reflexivity.
  - intros Hpos. rewrite (H0 Hpos). simpl. lia.
Qed.

Lemma getExtraSize_accounting_witness :
  TailAllocatedOperandList.getExtraSize 32 2 3 = 32 * 3
  /\ TailAllocatedOperandList.getExtraSize 32 0 3 = 32 * (3 - 1)
  /\ TailAllocatedOperandList.sizeof_Buffer 32 0
     + TailAllocatedOperandList.getExtraSize 32 0 3 = 32 * 3.
Proof.
  assert (Hs : 0 < 32 < 2 ^ unsigned_bits) by (unfold unsigned_bits; lia).
  assert (Hk : unsigned_ok 3) by (unfold unsigned_ok, unsigned_bits; lia).
  split; [|split].
  - apply (getExtraSize_accounting 32 2 3 Hs Hk). lia.
  - apply (getExtraSize_accounting 32 0 3 Hs Hk). lia.
  - apply (getExtraSize_accounting 32 0 3 Hs Hk). lia.
Defined.

(** ** Equality of filtered use iterators *)

(** C8: two filtered iterators compare equal exactly when their cursors
    are the same pointer.  The stored result number plays no part: two
    iterators at one operand with filters [r1] and [r2] are equal, and so
    are two iterators constructed at the null cursor with different
    filters, although the words they hold differ. *)
Theorem ValueUseIterator_eq_cursor_only :
  (forall it1 it2 : Z,
     ValueUseIterator.eqb it1 it2 = true <->
     ValueUseIterator.deref_it it1 = ValueUseIterator.deref_it it2)
  /\ (forall cur r1 r2 : Z,
        ptr_ok cur -> 0 <= r1 < 2 -> 0 <= r2 < 2 ->
        ValueUseIterator.deref_it (PointerIntPair.setPointerAndInt cur r1) = cur
        /\ ValueUseIterator.eqb (PointerIntPair.setPointerAndInt cur r1)
                                (PointerIntPair.setPointerAndInt cur r2) = true)
  /\ (forall (H : Store) (r1 r2 : Z),
        0 <= r1 < 2 -> 0 <= r2 < 2 ->
        exists it1 it2,
          ValueUseIterator.ctor H 0 r1 = Some it1
          /\ ValueUseIterator.ctor H 0 r2 = Some it2
          /\ ValueUseIterator.eqb it1 it2 = true
          /\ (r1 <> r2 -> it1 <> it2)).
Proof.
  split; [|split].
  - intros it1 it2. unfold ValueUseIterator.eqb, ValueUseIterator.deref_it.
    apply Z.eqb_eq.
  - intros cur r1 r2 Hc H1 H2.
    unfold ValueUseIterator.eqb, ValueUseIterator.deref_it.
    rewrite !setPointerAndInt_add, !getPointer_packed by assumption.
    split; [reflexivity | apply Z.eqb_refl].
  - intros H r1 r2 H1 H2.
    exists (PointerIntPair.setPointerAndInt 0 r1),
           (PointerIntPair.setPointerAndInt 0 r2).
    unfold ValueUseIterator.ctor, walk_fuel. simpl.
    repeat split.
    + unfold ValueUseIterator.eqb.
      rewrite !setPointerAndInt_add, !getPointer_packed
        by (assumption || apply ptr_ok_0).
      apply Z.eqb_refl.
    + rewrite !setPointerAndInt_add by (assumption || apply ptr_ok_0). lia.
Qed.

Lemma ValueUseIterator_eq_cursor_only_witness :
  ValueUseIterator.eqb (PointerIntPair.setPointerAndInt 8192 0)
                       (PointerIntPair.setPointerAndInt 8192 1) = true
  /\ PointerIntPair.setPointerAndInt 8192 0
     <> PointerIntPair.setPointerAndInt 8192 1.
Proof.
  split.
  - apply (proj1 (proj2 ValueUseIterator_eq_cursor_only) 8192 0 1).
    + unfold ptr_ok, uintptr_bits. split; [lia | reflexivity].
    + lia.
    + lia.
  - discriminate.
Defined.

(** ** Hashing of handles *)

(** C9: the hash of a handle is the pointer hash of its identity, so
    handles that are equal, or merely name results of one identity, hash
    alike; the two handles of results 0 and 1 of one value hash to the
    same number and are still different keys for [isEqual]. *)
Theorem DenseMapInfo_hash_ignores_result (PtrHash : Z -> Z) :
  (forall a b : SILValue.t,
     isEqual a b = true -> getHashValue PtrHash a = getHashValue PtrHash b)
  /\ (forall a b : SILValue.t,
        SILValue.getDef a = SILValue.getDef b ->
        getHashValue PtrHash a = getHashValue PtrHash b)
  /\ (forall V : Z, ptr_ok V ->
        exists h0 h1,
          SILValue.ctor V 0 = Some h0 /\ SILValue.ctor V 1 = Some h1
          /\ SILValue.getDef h0 = V /\ SILValue.getDef h1 = V
          /\ getHashValue PtrHash h0 = getHashValue PtrHash h1
          /\ isEqual h0 h1 = false).
Proof.
  split; [|split].
  - intros [x] [y]. unfold isEqual, SILValue.eqb, PointerIntPair.eqb. simpl.
    intros E. apply Z.eqb_eq in E. subst y. reflexivity.
  - intros a b E. unfold getHashValue. rewrite E. reflexivity.
  - intros V HV.
    exists (SILValue.Build (V + 2 * 0)), (SILValue.Build (V + 2 * 1)).
    assert (D0 : SILValue.getDef (SILValue.Build (V + 2 * 0)) = V)
      by (apply getPointer_packed; [assumption | lia]).
    assert (D1 : SILValue.getDef (SILValue.Build (V + 2 * 1)) = V)
      by (apply getPointer_packed; [assumption | lia]).
    repeat split; try assumption.
    + apply ctor_packed; [assumption | lia].
    + apply ctor_packed; [assumption | lia].
    + unfold getHashValue. rewrite D0, D1. reflexivity.
    + unfold isEqual, SILValue.eqb, PointerIntPair.eqb. simpl.
      apply Z.eqb_neq. lia.
Qed.

Lemma DenseMapInfo_hash_ignores_result_witness :
  exists h0 h1,
    SILValue.ctor 4096 0 = Some h0 /\ SILValue.ctor 4096 1 = Some h1
    /\ SILValue.getDef h0 = 4096 /\ SILValue.getDef h1 = 4096
    /\ getHashValue (fun p => Z.lxor (Z.shiftr p 4) (Z.shiftr p 9)) h0
       = getHashValue (fun p => Z.lxor (Z.shiftr p 4) (Z.shiftr p 9)) h1
    /\ isEqual h0 h1 = false.
Proof.
  apply (proj2 (proj2 (DenseMapInfo_hash_ignores_result
                         (fun p => Z.lxor (Z.shiftr p 4) (Z.shiftr p 9))))).
  unfold ptr_ok, uintptr_bits. split; [lia | reflexivity].
Defined.

(** ** The store *)

Lemma deref_Some {A : Type} (m : gmap Z A) (p : Z) (x : A) :
  deref m p = Some x <-> p <> 0 /\ m !! p = Some x.
Proof.
  unfold deref. destruct (decide (p = 0)) as [->|Hp].
  - split; [discriminate | intros [Hne _]; congruence].
  - split; [auto | intros [_ Hl]; exact Hl].
Qed.

Lemma deref_null {A : Type} (m : gmap Z A) : deref m 0 = None.
Proof. reflexivity. Qed.

Lemma deref_insert_eq {A : Type} (m : gmap Z A) (p : Z) (x : A) :
  p <> 0 -> deref (<[p := x]> m) p = Some x.
Proof. intros Hp. apply deref_Some. split; [exact Hp | apply lookup_insert_eq]. Qed.

Lemma deref_insert_ne {A : Type} (m : gmap Z A) (p q : Z) (x : A) :
  p <> q -> deref (<[p := x]> m) q = deref m q.
Proof.
  intros Hpq. unfold deref. destruct (decide (q = 0)); [reflexivity|].
  apply lookup_insert_ne. exact Hpq.
Qed.

(** ** Chains *)

Lemma chain_nil (ops : gmap Z OperandRec) (p : Z) :
  chain ops p [] = true <-> p = 0.
Proof. simpl. apply Z.eqb_eq. Qed.

Lemma chain_cons (ops : gmap Z OperandRec) (p a : Z) (t : list Z) :
  chain ops p (a :: t) = true <->
  p = a /\ exists o, deref ops a = Some o /\ chain ops (NextUse o) t = true.
Proof.
  simpl. rewrite andb_true_iff, Z.eqb_eq.
  destruct (deref ops a) as [o|].
  - split.
    + intros [Hp Hc]. split; [exact Hp|]. exists o. auto.
    + intros (Hp & o' & [= <-] & Hc). auto.
  - split; [intros [_ ?]; discriminate | intros (_ & o & ? & _); discriminate].
Qed.

Lemma chain_head_live (ops : gmap Z OperandRec) (p : Z) (us : list Z) :
  chain ops p us = true -> p = 0 \/ is_Some (deref ops p).
Proof.
  destruct us as [|a t].
  - rewrite chain_nil. auto.
  - rewrite chain_cons. intros (-> & o & Ho & _). right. eauto.
Qed.

Lemma chain_live (ops : gmap Z OperandRec) (us : list Z) :
  forall p, chain ops p us = true ->
            Forall (fun a => is_Some (deref ops a)) us.
Proof.
  induction us as [|a t IH]; intros p Hc; [constructor|].
  apply chain_cons in Hc as (-> & o & Ho & Ht).
  constructor; [eauto | eapply IH; eassumption].
Qed.

(** A chain only reads the [NextUse] members of live operands. *)
Lemma chain_agree (ops ops' : gmap Z OperandRec) (us : list Z) :
  (forall a o, deref ops a = Some o ->
               exists o', deref ops' a = Some o' /\ NextUse o' = NextUse o) ->
  forall p, chain ops p us = true -> chain ops' p us = true.
Proof.
  intros Hag. induction us as [|a t IH]; intros p Hc; [exact Hc|].
  apply chain_cons in Hc as (-> & o & Ho & Ht).
  apply chain_cons. split; [reflexivity|].
  destruct (Hag _ _ Ho) as (o' & Ho' & Hn).
  exists o'. split; [exact Ho'|]. rewrite Hn. apply IH. exact Ht.
Qed.

Lemma chain_det (ops : gmap Z OperandRec) (us : list Z) :
  forall p us', chain ops p us = true -> chain ops p us' = true -> us = us'.
Proof.
  induction us as [|a t IH]; intros p us' H1 H2.
  - apply chain_nil in H1. subst p. destruct us' as [|b t']; [reflexivity|].
    apply chain_cons in H2 as (<- & o & Ho & _).
    apply deref_Some in Ho as [Hne _]. congruence.
  - apply chain_cons in H1 as (-> & o & Ho & Ht).
    destruct us' as [|b t'].
    + apply chain_nil in H2. apply deref_Some in Ho as [Hne _]. congruence.
    + apply chain_cons in H2 as (<- & o' & Ho' & Ht').
      rewrite Ho in Ho'. injection Ho' as <-.
      f_equal. eapply IH; eassumption.
Qed.

Lemma chain_suffix (ops : gmap Z OperandRec) (us1 : list Z) :
  forall p a us2, chain ops p (us1 ++ a :: us2) = true ->
                  chain ops a (a :: us2) = true.
Proof.
  induction us1 as [|b t IH]; intros p a us2 Hc.
  - simpl in Hc. pose proof Hc as Hc'.
    apply chain_cons in Hc' as (-> & _). exact Hc.
  - simpl in Hc. apply chain_cons in Hc as (-> & o & Ho & Ht).
    eapply IH. exact Ht.
Qed.

Lemma chain_NoDup (ops : gmap Z OperandRec) (us : list Z) :
  forall p, chain ops p us = true -> NoDup us.
Proof.
  induction us as [|a t IH]; intros p Hc; [constructor|].
  pose proof Hc as Hc'.
  apply chain_cons in Hc' as (-> & o & Ho & Ht).
  constructor; [|eapply IH; exact Ht].
  intros Hin. apply list_elem_of_split in Hin as (t1 & t2 & ->).
  assert (Hs : chain ops a (a :: t2) = true)
    by (apply (chain_suffix ops (a :: t1) a a t2); exact Hc).
  pose proof (chain_det _ _ _ _ Hc Hs) as E.
  apply (f_equal length) in E. simpl in E. rewrite length_app in E.
  simpl in E. lia.
Qed.

Lemma chain_length (ops : gmap Z OperandRec) (p : Z) (us : list Z) :
  chain ops p us = true -> (length us <= size ops)%nat.
Proof.
  intros Hc.
  rewrite <- (size_list_to_set (C := gset Z) us) by (eapply chain_NoDup; exact Hc).
  rewrite <- (size_dom (D := gset Z) ops).
  apply subseteq_size. intros a Ha.
  apply elem_of_list_to_set in Ha.
  pose proof (chain_live _ _ _ Hc) as Hl.
  rewrite Forall_forall in Hl. destruct (Hl a Ha) as [o Ho].
  apply deref_Some in Ho as [_ Ho]. apply elem_of_dom. eauto.
Qed.

(** ** Walking a chain *)

Lemma range_chain (H : Store) (us : list Z) :
  forall (p : Z) (fuel : nat),
    chain (operands H) p us = true -> (length us < fuel)%nat ->
    ValueBaseUseIterator.range fuel H p 0 = Some us.
Proof.
  induction us as [|a t IH]; intros p fuel Hc Hf;
    (destruct fuel as [|fuel]; [simpl in Hf; lia|]).
  - apply chain_nil in Hc. subst p. reflexivity.
  - apply chain_cons in Hc as (-> & o & Ho & Ht).
    pose proof Ho as Hne. apply deref_Some in Hne as [Hne _].
    simpl. unfold ValueBaseUseIterator.eqb, ValueBaseUseIterator.incr.
    destruct (Z.eqb_spec a 0) as [|_]; [congruence|].
    rewrite Ho. simpl.
    rewrite (IH (NextUse o) fuel Ht) by (simpl in Hf; lia).
    reflexivity.
Qed.

Lemma targets_result_live (H : Store) (i a : Z) (o : OperandRec) :
  deref (operands H) a = Some o ->
  targets_result H i a = (SILValue.getResultNumber (TheValue o) =? i).
Proof. intros Ho. unfold targets_result, Operand.get. rewrite Ho. reflexivity. Qed.

Lemma skip_chain (H : Store) (rn : Z) (us : list Z) :
  forall (p : Z) (fuel : nat),
    chain (operands H) p us = true -> (length us < fuel)%nat ->
    ValueUseIterator.skip fuel H p rn
    = Some (hd 0 (List.filter (targets_result H rn) us)).
Proof.
  induction us as [|a t IH]; intros p fuel Hc Hf;
    (destruct fuel as [|fuel]; [simpl in Hf; lia|]).
  - apply chain_nil in Hc. subst p. reflexivity.
  - apply chain_cons in Hc as (-> & o & Ho & Ht).
    pose proof Ho as Hne. apply deref_Some in Hne as [Hne _].
    simpl. destruct (Z.eqb_spec a 0) as [|_]; [congruence|].
    rewrite Ho. simpl. rewrite (targets_result_live H rn a o Ho).
    destruct (SILValue.getResultNumber (TheValue o) =? rn); simpl.
    + reflexivity.
    + apply IH; [exact Ht | simpl in Hf; lia].
Qed.

Lemma advance_chain (H : Store) (rn : Z) (t : list Z) :
  forall (a : Z) (o : OperandRec) (fuel : nat),
    deref (operands H) a = Some o ->
    chain (operands H) (NextUse o) t = true -> (length t < fuel)%nat ->
    ValueUseIterator.advance fuel H a rn
    = Some (hd 0 (List.filter (targets_result H rn) t)).
Proof.
  induction t as [|b t' IH]; intros a o fuel Ho Hc Hf;
    (destruct fuel as [|fuel]; [simpl in Hf; lia|]).
  - apply chain_nil in Hc. simpl. rewrite Ho. simpl. rewrite Hc. reflexivity.
  - apply chain_cons in Hc as (Hb & o' & Ho' & Ht).
    pose proof Ho' as Hne. apply deref_Some in Hne as [Hne _].
    simpl. rewrite Ho. simpl. rewrite Hb.
    destruct (Z.eqb_spec b 0) as [|_]; [congruence|].
    rewrite Ho'. simpl. rewrite (targets_result_live H rn b o' Ho').
    destruct (SILValue.getResultNumber (TheValue o') =? rn); simpl.
    + reflexivity.
    + eapply IH; [exact Ho' | exact Ht | simpl in Hf; lia].
Qed.

Lemma hd_filter_ptr_ok (f : Z -> bool) (us : list Z) :
  Forall ptr_ok us -> ptr_ok (hd 0 (List.filter f us)).
Proof.
  induction 1 as [|a t Ha Ht IH]; simpl; [apply ptr_ok_0|].
  destruct (f a); simpl; assumption.
Qed.

Lemma getPointer_0 : PointerIntPair.getPointer 0 = 0.
Proof. reflexivity. Qed.

Lemma filtered_range_chain (H : Store) (rn : Z) (us : list Z) :
  0 <= rn < 2 -> Forall ptr_ok us ->
  forall (p : Z) (fuel : nat),
    chain (operands H) p us = true ->
    (length us < fuel)%nat -> (length us < walk_fuel H)%nat ->
    ValueUseIterator.range fuel H
      (hd 0 (List.filter (targets_result H rn) us) + 2 * rn) 0
    = Some (List.filter (targets_result H rn) us).
Proof.
  intros Hrn Hok. induction Hok as [|a t Ha Hok IH]; intros p fuel Hc Hf Hw;
    (destruct fuel as [|fuel]; [simpl in Hf; lia|]).
  - simpl. unfold ValueUseIterator.eqb.
    rewrite getPointer_packed by (apply ptr_ok_0 || assumption).
    reflexivity.
  - apply chain_cons in Hc as (-> & o & Ho & Ht).
    pose proof Ho as Hne. apply deref_Some in Hne as [Hne _].
    cbn [List.filter]. 
    destruct (targets_result H rn a) eqn:Hta.
    + cbn [hd ValueUseIterator.range].
      unfold ValueUseIterator.eqb, ValueUseIterator.incr,
        ValueUseIterator.deref_it.
      rewrite getPointer_packed, getInt_packed, getPointer_0 by assumption.
      destruct (Z.eqb_spec a 0) as [|_]; [congruence|].
      rewrite (advance_chain H rn t a o (walk_fuel H) Ho Ht)
        by (simpl in Hw; lia).
      simpl.
      rewrite setPointer_add
        by (assumption || apply hd_filter_ptr_ok; assumption).
      rewrite (IH (NextUse o) fuel Ht) by (simpl in Hf, Hw; lia).
      reflexivity.
    + apply (IH (NextUse o) (S fuel) Ht); simpl in Hf, Hw; lia.
Qed.

(** ** Construction of an operand *)

(** Construction at a fresh address when the target has no use yet. *)
Lemma ctor_fresh_null (this owner : Z) (h : SILValue.t) (H : Store)
    (vb : ValueBase) :
  this <> 0 ->
  deref (values H) (SILValue.getDef h) = Some vb -> FirstUse vb = 0 ->
  Operand.ctor this owner h H
  = Some (mkStore
            (<[SILValue.getDef h := mkValueBase this]> (values H))
            (<[this := mkOperand h 0 (Some (FirstUseOf (SILValue.getDef h)))
                         owner]> (operands H))).
Proof.
  intros Hthis Hv Hf.
  unfold Operand.ctor, Operand.place.
  destruct (decide (this = 0)) as [|_]; [congruence|]. simpl.
  unfold Operand.insertIntoCurrent. simpl.
  rewrite deref_insert_eq by exact Hthis. simpl. rewrite Hv. simpl.
  unfold store_Back at 2. simpl.
  rewrite deref_insert_eq by exact Hthis. simpl. rewrite Hv. simpl.
  unfold store_NextUse. simpl.
  rewrite deref_insert_eq by exact Hthis. simpl.
  rewrite deref_insert_eq by exact Hthis. simpl.
  rewrite !insert_insert_eq, Hf. simpl.
  unfold store_FirstUse. simpl. rewrite Hv. reflexivity.
Qed.

(** Construction at a fresh address when the target's list has a head. *)
Lemma ctor_fresh_head (this owner : Z) (h : SILValue.t) (H : Store)
    (vb : ValueBase) (hd : OperandRec) :
  this <> 0 -> operands H !! this = None ->
  deref (values H) (SILValue.getDef h) = Some vb ->
  deref (operands H) (FirstUse vb) = Some hd ->
  Operand.ctor this owner h H
  = Some (mkStore
            (<[SILValue.getDef h := mkValueBase this]> (values H))
            (<[FirstUse vb := mkOperand (TheValue hd) (NextUse hd)
                                (Some (NextUseOf this)) (Owner hd)]>
               (<[this := mkOperand h (FirstUse vb)
                            (Some (FirstUseOf (SILValue.getDef h))) owner]>
                  (operands H)))).
Proof.
  intros Hthis Hfresh Hv Hhd.
  pose proof Hhd as Hf. apply deref_Some in Hf as [Hf0 Hf].
  assert (Hft : this <> FirstUse vb) by congruence.
  unfold Operand.ctor, Operand.place.
  destruct (decide (this = 0)) as [|_]; [congruence|]. simpl.
  unfold Operand.insertIntoCurrent. simpl.
  rewrite deref_insert_eq by exact Hthis. simpl. rewrite Hv. simpl.
  unfold store_Back at 2. simpl.
  rewrite deref_insert_eq by exact Hthis. simpl. rewrite Hv. simpl.
  unfold store_NextUse. simpl.
  rewrite deref_insert_eq by exact Hthis. simpl.
  rewrite deref_insert_eq by exact Hthis. simpl.
  rewrite !insert_insert_eq.
  destruct (Z.eqb_spec (FirstUse vb) 0) as [|_]; [congruence|]. simpl.
  unfold store_Back. simpl.
  rewrite deref_insert_ne, Hhd by exact Hft. simpl.
  unfold store_FirstUse. simpl. rewrite Hv. reflexivity.
Qed.

(** Either way the new operand carries the handle and points on to the
    old head, and no other operand's [TheValue] or [NextUse] changes. *)
Lemma ctor_fresh (this owner : Z) (h : SILValue.t) (H : Store) (vb : ValueBase) :
  this <> 0 -> operands H !! this = None ->
  deref (values H) (SILValue.getDef h) = Some vb ->
  FirstUse vb = 0 \/ is_Some (deref (operands H) (FirstUse vb)) ->
  exists H',
    Operand.ctor this owner h H = Some H'
    /\ values H' = <[SILValue.getDef h := mkValueBase this]> (values H)
    /\ (exists b, operands H' !! this
                  = Some (mkOperand h (FirstUse vb) b owner))
    /\ (forall p, p <> this ->
          (fun o => (TheValue o, NextUse o)) <$> (operands H' !! p)
          = (fun o => (TheValue o, NextUse o)) <$> (operands H !! p)).
Proof.
  intros Hthis Hfresh Hv [Hf|[hd Hhd]].
  - eexists. split; [apply (ctor_fresh_null _ _ _ _ vb); assumption|].
    simpl. split; [reflexivity|]. split.
    + eexists. rewrite Hf. apply lookup_insert_eq.
    + intros p Hp. rewrite lookup_insert_ne by congruence. reflexivity.
  - eexists. split; [apply (ctor_fresh_head _ _ _ _ vb hd); assumption|].
    simpl. split; [reflexivity|].
    pose proof Hhd as Hf. apply deref_Some in Hf as [Hf0 Hf].
    assert (Hft : this <> FirstUse vb) by congruence.
    split.
    + eexists. rewrite lookup_insert_ne by congruence.
      apply lookup_insert_eq.
    + intros p Hp. destruct (decide (p = FirstUse vb)) as [->|Hpf].
      * rewrite lookup_insert_eq, Hf. reflexivity.
      * rewrite !lookup_insert_ne by congruence. reflexivity.
Qed.

(** ** Runs of constructions *)

Lemma linked_to_snoc (V : Z) (pre : list NewOperand) (e : NewOperand) :
  linked_to V (pre ++ [e])
  = if decide (SILValue.getDef (new_value e) = V)
    then new_addr e :: linked_to V pre
    else linked_to V pre.
Proof.
  unfold linked_to. rewrite filter_app, fmap_app, rev_app_distr.
  rewrite filter_cons, filter_nil.
  destruct (decide (SILValue.getDef (new_value e) = V)); reflexivity.
Qed.

Lemma run_inv_fresh (H : Store) : fresh_store H -> run_inv [] H.
Proof.
  intros [He Hz]. split; [|split].
  - intros p [o Ho]. rewrite He, lookup_empty in Ho. discriminate.
  - intros p [o Ho]. rewrite He, lookup_empty in Ho. discriminate.
  - intros V vb Hv. simpl. apply Z.eqb_eq. exact (Hz V vb Hv).
Qed.

Lemma ctor_step (pre : list NewOperand) (e : NewOperand) (H : Store) :
  run_inv pre H -> new_addr e ∉ new_addr <$> pre -> new_ok H e ->
  exists H',
    Operand.ctor (new_addr e) (new_owner e) (new_value e) H = Some H'
    /\ run_inv (pre ++ [e]) H'
    /\ (forall V, is_Some (deref (values H') V)
                  <-> is_Some (deref (values H) V)).
Proof.
  intros (Hdom & Hal & Hch) Hnew (Hok & Hne & [vb Hvb]).
  assert (Hfresh : operands H !! new_addr e = None).
  { destruct (operands H !! new_addr e) eqn:E; [|reflexivity].
    exfalso. apply Hnew, Hdom. eauto. }
  pose proof Hvb as Hvb'. apply deref_Some in Hvb' as [HV0 Hvb'].
  pose proof (Hch _ _ Hvb') as Hc.
  destruct (ctor_fresh (new_addr e) (new_owner e) (new_value e) H vb
              Hne Hfresh Hvb (chain_head_live _ _ _ Hc))
    as (H' & Hctor & Hvals & [b Hthis] & Hothers).
  assert (Hag : forall a o, deref (operands H) a = Some o ->
            exists o', deref (operands H') a = Some o'
                       /\ NextUse o' = NextUse o).
  { intros a o Ha. apply deref_Some in Ha as [Ha0 Ha].
    assert (Hat : a <> new_addr e) by congruence.
    specialize (Hothers a Hat). rewrite Ha in Hothers. simpl in Hothers.
    destruct (operands H' !! a) as [o'|] eqn:E; [|discriminate].
    simpl in Hothers. injection Hothers as _ Hn.
    exists o'. split; [apply deref_Some; auto | exact Hn]. }
  exists H'. split; [exact Hctor|]. split; [split; [|split]|].
  - intros p [o Ho]. rewrite fmap_app, elem_of_app.
    destruct (decide (p = new_addr e)) as [->|Hp].
    + right. simpl. apply list_elem_of_singleton. reflexivity.
    + left. apply Hdom. specialize (Hothers p Hp). rewrite Ho in Hothers.
      destruct (operands H !! p); [eauto | discriminate].
  - intros p [o Ho].
    destruct (decide (p = new_addr e)) as [->|Hp]; [exact Hok|].
    apply Hal. specialize (Hothers p Hp). rewrite Ho in Hothers.
    destruct (operands H !! p); [eauto | discriminate].
  - intros V vb' Hv'. rewrite Hvals in Hv'. rewrite linked_to_snoc.
    destruct (decide (SILValue.getDef (new_value e) = V)) as [EV|NV].
    + rewrite EV, lookup_insert_eq in Hv'. injection Hv' as <-. simpl.
      apply chain_cons. split; [reflexivity|].
      eexists. split; [apply deref_Some; split; [exact Hne | exact Hthis]|].
      simpl. rewrite <- EV. eapply chain_agree; eassumption.
    + rewrite lookup_insert_ne in Hv' by exact NV.
      eapply chain_agree; [exact Hag|]. apply Hch. exact Hv'.
  - intros V. rewrite Hvals. unfold deref.
    destruct (decide (V = 0)); [reflexivity|].
    destruct (decide (SILValue.getDef (new_value e) = V)) as [<-|NV].
    + rewrite lookup_insert_eq, Hvb'. split; eauto.
    + rewrite lookup_insert_ne by exact NV. reflexivity.
Qed.

Lemma construct_all_inv (l : list NewOperand) :
  forall (pre : list NewOperand) (H : Store),
    run_inv pre H -> NoDup (new_addr <$> (pre ++ l)) -> Forall (new_ok H) l ->
    exists H',
      construct_all l H = Some H'
      /\ run_inv (pre ++ l) H'
      /\ (forall V, is_Some (deref (values H') V)
                    <-> is_Some (deref (values H) V)).
Proof.
  induction l as [|e l' IH]; intros pre H Hinv Hnd Hok.
  - exists H. rewrite app_nil_r. split; [reflexivity|]. split; [exact Hinv|].
    intros V. reflexivity.
  - apply Forall_cons in Hok as [He Hok'].
    assert (Hnew : new_addr e ∉ new_addr <$> pre).
    { rewrite fmap_app in Hnd. apply NoDup_app in Hnd as (_ & Hdisj & _).
      intros Hin. apply (Hdisj _ Hin). simpl. apply list_elem_of_here. }
    destruct (ctor_step pre e H Hinv Hnew He) as (H1 & Hc & Hinv1 & Hlive1).
    assert (Hok1 : Forall (new_ok H1) l').
    { eapply Forall_impl; [exact Hok'|].
      intros x (Hx1 & Hx2 & Hx3).
      split; [exact Hx1|]. split; [exact Hx2|].
      apply Hlive1. exact Hx3. }
    destruct (IH (pre ++ [e]) H1 Hinv1) as (H' & Hc' & Hinv' & Hlive').
    + rewrite <- app_assoc. exact Hnd.
    + exact Hok1.
    + exists H'. simpl. rewrite Hc. simpl.
      split; [exact Hc'|]. split.
      * rewrite <- app_assoc in Hinv'. exact Hinv'.
      * intros V. rewrite Hlive'. apply Hlive1.
Qed.

Lemma use_end_null (H : Store) : SILValueUses.use_end H = Some 0.
Proof. reflexivity. Qed.

(** The two enumerations on a value that heads a sound chain. *)
Lemma getUses_chain (H : Store) (h : SILValue.t) (vb : ValueBase) (us : list Z) :
  deref (values H) (SILValue.getDef h) = Some vb ->
  chain (operands H) (FirstUse vb) us = true ->
  Forall ptr_ok us ->
  ValueBase.getUses H (SILValue.getDef h) = Some us
  /\ SILValueUses.getUses H h
     = Some (List.filter (targets_result H (SILValue.getResultNumber h)) us).
Proof.
  intros Hv Hc Hok.
  assert (Hlen : (length us < walk_fuel H)%nat).
  { unfold walk_fuel. pose proof (chain_length _ _ _ Hc). lia. }
  split.
  - unfold ValueBase.getUses, ValueBase.use_begin. rewrite Hv. cbn.
    apply range_chain; assumption.
  - unfold SILValueUses.getUses, SILValueUses.use_begin. rewrite Hv. cbn.
    unfold ValueUseIterator.ctor.
    rewrite (skip_chain H _ us (FirstUse vb) (walk_fuel H) Hc Hlen). cbn.
    rewrite use_end_null. cbn.
    rewrite setPointerAndInt_add
      by (apply hd_filter_ptr_ok, Hok || apply getInt_range).
    eapply filtered_range_chain; try eassumption. apply getInt_range.
Qed.

(** C4: after any run of constructions on a store without operands, every
    live value's use list holds the run's operands that target it, most
    recently constructed first, and the result-filtered enumeration for a
    handle of that value is the sub-list of the operands whose target has
    the handle's result number, in the same order. *)
Theorem filtered_uses_after_construction
    (H0 : Store) (l : list NewOperand) (h : SILValue.t) :
  fresh_store H0 -> run_ok H0 l ->
  is_Some (deref (values H0) (SILValue.getDef h)) ->
  exists H us,
    construct_all l H0 = Some H
    /\ ValueBase.getUses H (SILValue.getDef h) = Some us
    /\ us = linked_to (SILValue.getDef h) l
    /\ SILValueUses.getUses H h
       = Some (List.filter
                 (targets_result H (SILValue.getResultNumber h)) us).
Proof.
  intros Hfresh [Hnd Hok] Hlive.
  destruct (construct_all_inv l [] H0 (run_inv_fresh H0 Hfresh) Hnd Hok)
    as (H & Hc & (Hdom & Hal & Hch) & Hl).
  simpl in Hdom, Hch.
  destruct (proj2 (Hl _) Hlive) as [vb Hvb].
  pose proof Hvb as Hvb'. apply deref_Some in Hvb' as [_ Hvb'].
  pose proof (Hch _ _ Hvb') as Hchain.
  assert (Hptr : Forall ptr_ok (linked_to (SILValue.getDef h) l)).
  { eapply Forall_impl; [exact (chain_live _ _ _ Hchain)|].
    intros a [o Ho]. apply Hal. apply deref_Some in Ho as [_ Ho]. eauto. }
  destruct (getUses_chain H h vb _ Hvb Hchain Hptr) as [Hu Hf].
  exists H, (linked_to (SILValue.getDef h) l). auto.
Qed.

Lemma filtered_uses_after_construction_witness :
  exists H,
    construct_all scenario_B store_V = Some H
    /\ ValueBase.getUses H 4096 = Some [8256; 8224; 8192]
    /\ SILValueUses.getUses H V_0 = Some [8256; 8192]
    /\ SILValueUses.getUses H V_1 = Some [8224].
Proof.
  assert (Hfresh : fresh_store store_V).
  { split; [reflexivity|]. apply map_Forall_singleton. reflexivity. }
  assert (Hptr : forall p, 0 <= p < 2 ^ 64 -> p mod 4 = 0 -> ptr_ok p)
    by (intros p ? ?; split; assumption).
  assert (Hrun : run_ok store_V scenario_B).
  { split.
    - simpl. rewrite !NoDup_cons, !not_elem_of_cons.
      repeat split; try lia; try apply not_elem_of_nil. apply NoDup_nil_2.
    - repeat constructor;
        try (apply Hptr; [lia | reflexivity]); try (simpl; lia);
        exists (mkValueBase 0); reflexivity. }
  assert (Hlive : forall h, SILValue.getDef h = 4096 ->
            is_Some (deref (values store_V) (SILValue.getDef h))).
  { intros h ->. exists (mkValueBase 0). reflexivity. }
  destruct (filtered_uses_after_construction store_V scenario_B V_0
              Hfresh Hrun (Hlive V_0 eq_refl)) as (H & us & Hc & Hu & -> & Hf0).
  destruct (filtered_uses_after_construction store_V scenario_B V_1
              Hfresh Hrun (Hlive V_1 eq_refl)) as (H' & us' & Hc' & _ & -> & Hf1).
  rewrite Hc in Hc'. injection Hc' as <-.
  exists H. split; [exact Hc|].
  vm_compute in Hc. injection Hc as <-.
  split; [exact Hu|]. split; [exact Hf0 | exact Hf1].
Defined.

(** ** Result-filtered emptiness *)

Lemma hd_filter_null (f : Z -> bool) (us : list Z) :
  Forall (fun a => a <> 0) us ->
  (hd 0 (List.filter f us) =? 0) = forallb (fun p => negb (f p)) us.
Proof.
  induction 1 as [|a t Ha Ht IH]; [reflexivity|].
  simpl. destruct (f a); simpl; [|exact IH].
  apply Z.eqb_neq. exact Ha.
Qed.

(** C10: on a value whose use list is a sound chain, [SILValue::use_empty]
    is true exactly when no linked operand targets the handle's result
    number, and [ValueBase::use_empty] is true exactly when nothing is
    linked at all; so when operands are linked but none of them targets
    the handle's result, the first is true and the second is false. *)
Theorem SILValue_use_empty_filtered
    (H : Store) (h : SILValue.t) (us : list Z) :
  use_list H (SILValue.getDef h) us = true -> Forall ptr_ok us ->
  (exists b, SILValueUses.use_empty H h = Some b
             /\ (b = true <->
                 forall p, p ∈ us ->
                   targets_result H (SILValue.getResultNumber h) p = false))
  /\ (exists b', ValueBase.use_empty H (SILValue.getDef h) = Some b'
                 /\ (b' = true <-> us = []))
  /\ (us <> [] ->
      (forall p, p ∈ us ->
         targets_result H (SILValue.getResultNumber h) p = false) ->
      SILValueUses.use_empty H h = Some true
      /\ ValueBase.use_empty H (SILValue.getDef h) = Some false).
Proof.
  unfold use_list. intros Hul Hok.
  destruct (deref (values H) (SILValue.getDef h)) as [vb|] eqn:Hv;
    [|discriminate].
  assert (Hlen : (length us < walk_fuel H)%nat).
  { unfold walk_fuel. pose proof (chain_length _ _ _ Hul). lia. }
  assert (Hnz : Forall (fun a => a <> 0) us).
  { eapply Forall_impl; [exact (chain_live _ _ _ Hul)|].
    intros a [o Ho]. apply deref_Some in Ho as [Hne _]. exact Hne. }
  set (rn := SILValue.getResultNumber h).
  assert (Hse : SILValueUses.use_empty H h
                = Some (forallb (fun p => negb (targets_result H rn p)) us)).
  { unfold SILValueUses.use_empty, SILValueUses.use_begin. rewrite Hv. cbn.
    unfold ValueUseIterator.ctor.
    rewrite (skip_chain H _ us (FirstUse vb) (walk_fuel H) Hul Hlen). cbn.
    rewrite use_end_null. cbn. unfold ValueUseIterator.eqb.
    rewrite setPointerAndInt_add
      by (apply hd_filter_ptr_ok, Hok || apply getInt_range).
    rewrite getPointer_packed
      by (apply hd_filter_ptr_ok, Hok || apply getInt_range).
    rewrite getPointer_0. f_equal. apply hd_filter_null. exact Hnz. }
  assert (Hall : forallb (fun p => negb (targets_result H rn p)) us = true
                 <-> forall p, p ∈ us -> targets_result H rn p = false).
  { rewrite forallb_forall. split; intros Hx p Hp.
    - apply negb_true_iff, Hx, list_elem_of_In, Hp.
    - apply negb_true_iff, Hx, list_elem_of_In, Hp. }
  assert (Hve : ValueBase.use_empty H (SILValue.getDef h)
                = Some (match us with [] => true | _ => false end)).
  { unfold ValueBase.use_empty. rewrite Hv. cbn. f_equal.
    destruct us as [|a t].
    - apply chain_nil in Hul. rewrite Hul. reflexivity.
    - apply chain_cons in Hul as (-> & o & Ho & _).
      apply deref_Some in Ho as [Hne _]. apply Z.eqb_neq. exact Hne. }
  split; [|split].
  - eexists. split; [exact Hse | exact Hall].
  - eexists. split; [exact Hve|]. destruct us; split; congruence.
  - intros Hne Hno. split.
    + rewrite Hse. f_equal. apply Hall. exact Hno.
    + rewrite Hve. destruct us; congruence.
Qed.

Lemma SILValue_use_empty_filtered_witness :
  SILValueUses.use_empty store_R1 V_0 = Some true
  /\ ValueBase.use_empty store_R1 4096 = Some false
  /\ SILValueUses.use_empty store_R1 V_1 = Some false.
Proof.
  assert (Hok : Forall ptr_ok [8224]).
  { repeat constructor. unfold uintptr_bits. lia. }
  destruct (SILValue_use_empty_filtered store_R1 V_0 [8224] eq_refl Hok)
    as (_ & _ & Hboth).
  destruct Hboth as [H0 H1].
  - discriminate.
  - intros p Hp. apply list_elem_of_singleton in Hp. subst p. reflexivity.
  - split; [exact H0|]. split; [exact H1 | reflexivity].
Defined.

(** ** Retargeting an operand *)

(** Overwriting a live operand with a record that agrees on the member
    [f] leaves [f] as it was, at every address. *)
Lemma fmap_deref_insert_same {B : Type} (f : OperandRec -> B)
    (ops : gmap Z OperandRec) (p : Z) (o o' : OperandRec) :
  deref ops p = Some o -> f o' = f o ->
  forall q, f <$> deref (<[p := o']> ops) q = f <$> deref ops q.
Proof.
  intros Ho Hf q. pose proof Ho as Hp. apply deref_Some in Hp as [Hp _].
  destruct (decide (p = q)) as [<-|Hpq].
  - rewrite deref_insert_eq by exact Hp. rewrite Ho. simpl. congruence.
  - rewrite deref_insert_ne by exact Hpq. reflexivity.
Qed.

Lemma store_Back_spec (p : Z) (b : option UseSlot) (H : Store) :
  is_Some (deref (operands H) p) ->
  exists H',
    store_Back p b H = Some H' /\ values H' = values H
    /\ (forall q, TheValue <$> deref (operands H') q
                  = TheValue <$> deref (operands H) q)
    /\ (forall q, NextUse <$> deref (operands H') q
                  = NextUse <$> deref (operands H) q).
Proof.
  intros [o Ho]. unfold store_Back. rewrite Ho. simpl.
  eexists. split; [reflexivity|]. simpl. split; [reflexivity|].
  split; intros q; apply (fmap_deref_insert_same _ _ _ o); auto.
Qed.

Lemma store_NextUse_spec (p n : Z) (H : Store) :
  is_Some (deref (operands H) p) ->
  exists H',
    store_NextUse p n H = Some H' /\ values H' = values H
    /\ (forall q, TheValue <$> deref (operands H') q
                  = TheValue <$> deref (operands H) q)
    /\ NextUse <$> deref (operands H') p = Some n
    /\ (forall q, q <> p ->
          deref (operands H') q = deref (operands H) q).
Proof.
  intros [o Ho]. unfold store_NextUse. rewrite Ho. simpl.
  eexists. split; [reflexivity|]. simpl. split; [reflexivity|].
  split; [|split].
  - intros q. apply (fmap_deref_insert_same _ _ _ o); auto.
  - apply deref_Some in Ho as [Hp _].
    rewrite deref_insert_eq by exact Hp. reflexivity.
  - intros q Hq. apply deref_insert_ne. congruence.
Qed.

Lemma store_TheValue_spec (p : Z) (v : SILValue.t) (H : Store) :
  is_Some (deref (operands H) p) ->
  exists H',
    store_TheValue p v H = Some H' /\ values H' = values H
    /\ TheValue <$> deref (operands H') p = Some v
    /\ (forall q, is_Some (deref (operands H') q)
                  <-> is_Some (deref (operands H) q)).
Proof.
  intros [o Ho]. unfold store_TheValue. rewrite Ho. simpl.
  eexists. split; [reflexivity|]. simpl. split; [reflexivity|].
  pose proof Ho as Hp. apply deref_Some in Hp as [Hp _]. split.
  - rewrite deref_insert_eq by exact Hp. reflexivity.
  - intros q. destruct (decide (p = q)) as [<-|Hpq].
    + rewrite deref_insert_eq, Ho by exact Hp. split; eauto.
    + rewrite deref_insert_ne by exact Hpq. reflexivity.
Qed.

Lemma same_targets_live (ops ops' : gmap Z OperandRec) :
  (forall q, TheValue <$> deref ops' q = TheValue <$> deref ops q) ->
  forall q, is_Some (deref ops' q) <-> is_Some (deref ops q).
Proof.
  intros Hs q. specialize (Hs q).
  destruct (deref ops' q), (deref ops q); simpl in Hs;
    try discriminate; split; intros [? ?]; eauto; discriminate.
Qed.

(** [removeFromCurrent] on an operand that is ready to be unlinked runs
    to its end; it writes no [FirstUse] and no [TheValue]. *)
Lemma removeFromCurrent_defined (this : Z) (H : Store) :
  unlink_ready H this ->
  exists H1,
    Operand.removeFromCurrent this H = Some H1 /\ values H1 = values H
    /\ (forall q, TheValue <$> deref (operands H1) q
                  = TheValue <$> deref (operands H) q).
Proof.
  intros (o & Ho & Hready). unfold Operand.removeFromCurrent.
  rewrite Ho. simpl.
  destruct (Back o) as [b|] eqn:Eb.
  2:{ exists H. auto. }
  destruct Hready as [(p & Hp & Hplive) Hnext].
  rewrite Hp. simpl.
  destruct (store_NextUse_spec p (NextUse o) H Hplive)
    as (H1 & E1 & Hv1 & Ht1 & Hn1 & Hoth1).
  rewrite E1. simpl.
  assert (Ho1 : exists o1, deref (operands H1) this = Some o1
                           /\ NextUse o1 = NextUse o).
  { destruct (decide (this = p)) as [->|Hne].
    - destruct (deref (operands H1) p) as [o1|]; [|discriminate].
      simpl in Hn1. injection Hn1 as Hn1. eauto.
    - rewrite (Hoth1 this Hne). eauto. }
  destruct Ho1 as (o1 & Ho1 & Hn). rewrite Ho1. simpl. rewrite Hn.
  destruct (Z.eqb_spec (NextUse o) 0) as [|Hnz].
  { exists H1. auto. }
  destruct Hnext as [|Hlive]; [congruence|].
  apply (same_targets_live _ _ Ht1) in Hlive.
  destruct (store_Back_spec (NextUse o) (Back o1) H1 Hlive)
    as (H2 & E2 & Hv2 & Ht2 & _).
  exists H2. split; [exact E2|]. split; [congruence|].
  intros q. rewrite Ht2. apply Ht1.
Qed.

(** [insertIntoCurrent] on a live operand with a live target whose head
    pointer is null or live runs to its end; it writes no [TheValue]. *)
Lemma insertIntoCurrent_defined (this : Z) (H : Store)
    (o : OperandRec) (vb : ValueBase) :
  deref (operands H) this = Some o ->
  deref (values H) (SILValue.getDef (TheValue o)) = Some vb ->
  FirstUse vb = 0 \/ is_Some (deref (operands H) (FirstUse vb)) ->
  exists H',
    Operand.insertIntoCurrent this H = Some H'
    /\ (forall q, TheValue <$> deref (operands H') q
                  = TheValue <$> deref (operands H) q).
Proof.
  intros Ho Hv Hf. unfold Operand.insertIntoCurrent. rewrite Ho. simpl.
  rewrite Hv. simpl.
  destruct (store_Back_spec this
              (Some (FirstUseOf (SILValue.getDef (TheValue o)))) H
              (ex_intro _ o Ho)) as (H1 & E1 & Hv1 & Ht1 & _).
  rewrite E1. simpl. rewrite Hv1, Hv. simpl.
  assert (Hlive1 : is_Some (deref (operands H1) this))
    by (apply (same_targets_live _ _ Ht1); eauto).
  destruct (store_NextUse_spec this (FirstUse vb) H1 Hlive1)
    as (H2 & E2 & Hv2 & Ht2 & Hn2 & _).
  rewrite E2. simpl.
  destruct (deref (operands H2) this) as [o2|] eqn:Ho2; [|discriminate].
  simpl in Hn2. injection Hn2 as Hn2. simpl. rewrite Hn2.
  assert (Hfin : forall H3,
            values H3 = values H ->
            (forall q, TheValue <$> deref (operands H3) q
                       = TheValue <$> deref (operands H) q) ->
            exists H',
              store_FirstUse (SILValue.getDef (TheValue o)) this H3 = Some H'
              /\ (forall q, TheValue <$> deref (operands H') q
                            = TheValue <$> deref (operands H) q)).
  { intros H3 Hv3 Ht3. unfold store_FirstUse. rewrite Hv3, Hv. simpl.
    eexists. split; [reflexivity|]. exact Ht3. }
  destruct (Z.eqb_spec (FirstUse vb) 0) as [|Hnz]; simpl.
  - apply Hfin; [congruence|]. intros q. rewrite Ht2. apply Ht1.
  - destruct Hf as [|Hlive]; [congruence|].
    apply (same_targets_live _ _ Ht1) in Hlive.
    apply (same_targets_live _ _ Ht2) in Hlive.
    destruct (store_Back_spec (FirstUse vb) (Some (NextUseOf this)) H2 Hlive)
      as (H3 & E3 & Hv3 & Ht3 & _).
    rewrite E3. simpl.
    apply Hfin; [congruence|]. intros q. rewrite Ht3, Ht2. apply Ht1.
Qed.

(** Whenever [set] runs to its end, [get] returns the new handle. *)
Lemma set_Some_get (H H' : Store) (this : Z) (h : SILValue.t) :
  Operand.set this h H = Some H' -> Operand.get H' this = Some h.
Proof.
  unfold Operand.set. intros Hset.
  destruct (Operand.removeFromCurrent this H) as [H1|]; [|discriminate].
  simpl in Hset.
  destruct (store_TheValue this h H1) as [H2|] eqn:E2; [|discriminate].
  simpl in Hset.
  assert (Hlive : is_Some (deref (operands H1) this)).
  { unfold store_TheValue in E2.
    destruct (deref (operands H1) this); [eauto | discriminate]. }
  destruct (store_TheValue_spec this h H1 Hlive) as (H2' & E2' & _ & Hh & _).
  rewrite E2 in E2'. injection E2' as <-.
  destruct (deref (operands H2) this) as [o2|] eqn:Ho2; [|discriminate].
  simpl in Hh. injection Hh as Hh.
  unfold Operand.insertIntoCurrent in Hset. rewrite Ho2 in Hset.
  simpl in Hset.
  destruct (deref (values H2) (SILValue.getDef (TheValue o2))) as [vb|] eqn:Hv;
    [|discriminate].
  simpl in Hset.
  destruct (store_Back_spec this
              (Some (FirstUseOf (SILValue.getDef (TheValue o2)))) H2
              (ex_intro _ o2 Ho2)) as (H3 & E3 & Hv3 & Ht3 & _).
  rewrite E3 in Hset. simpl in Hset. rewrite Hv3, Hv in Hset. simpl in Hset.
  assert (Hlive3 : is_Some (deref (operands H3) this))
    by (apply (same_targets_live _ _ Ht3); eauto).
  destruct (store_NextUse_spec this (FirstUse vb) H3 Hlive3)
    as (H4 & E4 & Hv4 & Ht4 & Hn4 & _).
  rewrite E4 in Hset. simpl in Hset.
  destruct (deref (operands H4) this) as [o4|] eqn:Ho4; [|discriminate].
  simpl in Hset.
  assert (Hkeep : forall H5,
            (forall q, TheValue <$> deref (operands H5) q
                       = TheValue <$> deref (operands H2) q) ->
            store_FirstUse (SILValue.getDef (TheValue o2)) this H5 = Some H' ->
            Operand.get H' this = Some h).
  { intros H5 Ht5. unfold store_FirstUse.
    destruct (deref (values H5) (SILValue.getDef (TheValue o2)));
      [|discriminate].
    simpl. intros [= <-]. unfold Operand.get. simpl.
    rewrite Ht5, Ho2. simpl. congruence. }
  destruct (NextUse o4 =? 0).
  - simpl in Hset. apply (Hkeep H4); [|exact Hset].
    intros q. rewrite Ht4. apply Ht3.
  - destruct (store_Back (NextUse o4) (Some (NextUseOf this)) H4)
      as [H5|] eqn:E5; [|discriminate].
    simpl in Hset.
    assert (Hlive5 : is_Some (deref (operands H4) (NextUse o4))).
    { unfold store_Back in E5.
      destruct (deref (operands H4) (NextUse o4)); [eauto | discriminate]. }
    destruct (store_Back_spec (NextUse o4) (Some (NextUseOf this)) H4 Hlive5)
      as (H5' & E5' & _ & Ht5 & _).
    rewrite E5 in E5'. injection E5' as <-.
    apply (Hkeep H5); [|exact Hset].
    intros q. rewrite Ht5, Ht4. apply Ht3.
Qed.

(** C3: when the operand is ready to be unlinked and the handle's value
    is ready to take a new head, [set] runs to its end, and afterwards
    [get] returns that handle, whatever the operand targeted before. *)
Theorem set_then_get (H : Store) (this : Z) (h : SILValue.t) :
  unlink_ready H this -> link_ready H (SILValue.getDef h) ->
  exists H', Operand.set this h H = Some H' /\ Operand.get H' this = Some h.
Proof.
  intros Hthis (vb & Hvb & Hhead).
  destruct (removeFromCurrent_defined this H Hthis)
    as (H1 & E1 & Hv1 & Ht1).
  pose proof (same_targets_live _ _ Ht1) as Hl1.
  assert (Hlive : is_Some (deref (operands H) this))
    by (destruct Hthis as (o & Ho & _); eauto).
  destruct (store_TheValue_spec this h H1 (proj2 (Hl1 this) Hlive))
    as (H2 & E2 & Hv2 & Hh & Hl2).
  destruct (deref (operands H2) this) as [o2|] eqn:Ho2; [|discriminate].
  simpl in Hh. injection Hh as Hh.
  assert (Hf : FirstUse vb = 0 \/ is_Some (deref (operands H2) (FirstUse vb))).
  { destruct Hhead as [Hz|Hl]; [left; exact Hz | right].
    apply Hl2, Hl1. exact Hl. }
  destruct (insertIntoCurrent_defined this H2 o2 vb Ho2) as (H' & E' & Ht').
  - rewrite Hh, Hv2, Hv1. exact Hvb.
  - exact Hf.
  - assert (Hset : Operand.set this h H = Some H').
    { unfold Operand.set. rewrite E1. simpl. rewrite E2. simpl. exact E'. }
    exists H'. split; [exact Hset|]. eapply set_Some_get. exact Hset.
Qed.

Lemma set_then_get_witness :
  exists H', Operand.set 8192 V_0 store_A = Some H'
             /\ Operand.get H' 8192 = Some V_0.
Proof.
  apply set_then_get.
  - eexists. split; [reflexivity|]. simpl. split.
    + exists 8192. split; [reflexivity|]. eexists. reflexivity.
    + left. reflexivity.
  - eexists. split; [reflexivity|]. right. eexists. reflexivity.
Defined.

(** Sound links make every live operand ready to be unlinked and every
    live value ready to take a new head. *)
Lemma well_linked_unlink_ready (H : Store) (this : Z) :
  well_linked H -> is_Some (deref (operands H) this) -> unlink_ready H this.
Proof.
  intros (_ & _ & Hops) [o Ho]. exists o. split; [exact Ho|].
  pose proof Ho as Hl. apply deref_Some in Hl as [_ Hl].
  apply Hops in Hl. unfold operand_linked in Hl.
  apply andb_true_iff in Hl as [Hnext Hback].
  destruct (Back o) as [b|]; [|exact I].
  apply bool_decide_eq_true in Hback. split.
  - exists this. eauto.
  - apply orb_true_iff in Hnext as [Hz|Hlive].
    + left. apply Z.eqb_eq. exact Hz.
    + right. apply bool_decide_eq_true in Hlive. exact Hlive.
Qed.

Lemma well_linked_link_ready (H : Store) (V : Z) :
  well_linked H -> is_Some (deref (values H) V) -> link_ready H V.
Proof.
  intros (_ & Hvals & _) [vb Hvb]. exists vb. split; [exact Hvb|].
  apply deref_Some in Hvb as [_ Hvb].
  apply Hvals in Hvb. unfold value_linked in Hvb.
  apply orb_true_iff in Hvb as [Hz|Hlive].
  - left. apply Z.eqb_eq. exact Hz.
  - right. apply bool_decide_eq_true in Hlive. exact Hlive.
Qed.

(** ** Constructions keep the links sound *)

Lemma deref_insert_live {A : Type} (m : gmap Z A) (p q : Z) (x : A) :
  is_Some (deref m q) -> is_Some (deref (<[p := x]> m) q).
Proof.
  intros [y Hy]. apply deref_Some in Hy as [Hq Hy].
  destruct (decide (p = q)) as [->|Hpq].
  - exists x. apply deref_insert_eq. exact Hq.
  - exists y. rewrite deref_insert_ne by exact Hpq.
    apply deref_Some. auto.
Qed.

Lemma next_ok_mono (ops ops' : gmap Z OperandRec) (n : Z) :
  (forall q, is_Some (deref ops q) -> is_Some (deref ops' q)) ->
  (n =? 0) || bool_decide (is_Some (deref ops n)) = true ->
  (n =? 0) || bool_decide (is_Some (deref ops' n)) = true.
Proof.
  intros Hm Hn. apply orb_true_iff in Hn as [Hz|Hl]; apply orb_true_iff.
  - left. exact Hz.
  - right. apply bool_decide_eq_true. apply Hm.
    apply bool_decide_eq_true in Hl. exact Hl.
Qed.

(** A slot other than the target's [FirstUse] reads the same after a
    construction at a fresh address. *)
Lemma load_slot_other (H H' : Store) (V this : Z) (b : UseSlot) (p : Z) :
  values H' = <[V := mkValueBase this]> (values H) ->
  (forall r, r <> this ->
     NextUse <$> (operands H' !! r) = NextUse <$> (operands H !! r)) ->
  operands H !! this = None ->
  b <> FirstUseOf V ->
  load_slot H b = Some p -> load_slot H' b = Some p.
Proof.
  intros Hv Hn Hfresh Hb Hl. destruct b as [V'|r]; simpl in *.
  - rewrite Hv. rewrite deref_insert_ne by congruence. exact Hl.
  - unfold deref in *. destruct (decide (r = 0)); [exact Hl|].
    assert (Hr : r <> this).
    { intros ->. rewrite Hfresh in Hl. discriminate. }
    rewrite (Hn r Hr). exact Hl.
Qed.

Lemma ctor_well_linked (this owner : Z) (h : SILValue.t) (H : Store) :
  well_linked H -> this <> 0 -> operands H !! this = None ->
  is_Some (deref (values H) (SILValue.getDef h)) ->
  exists H', Operand.ctor this owner h H = Some H' /\ well_linked H'.
Proof.
  intros (Hz & Hvals & Hops) Hthis Hfresh [vb Hvb].
  pose proof Hvb as Hvb'. apply deref_Some in Hvb' as [HV0 Hvb'].
  pose proof (Hvals _ _ Hvb') as Hhead. unfold value_linked in Hhead.
  assert (Hf : FirstUse vb = 0 \/ is_Some (deref (operands H) (FirstUse vb))).
  { apply orb_true_iff in Hhead as [E|E].
    - left. apply Z.eqb_eq. exact E.
    - right. apply bool_decide_eq_true in E. exact E. }
  destruct (ctor_fresh this owner h H vb Hthis Hfresh Hvb Hf)
    as (H' & Hctor & Hv' & _ & Hoth).
  assert (Hnext : forall r, r <> this ->
            NextUse <$> (operands H' !! r) = NextUse <$> (operands H !! r)).
  { intros r Hr. specialize (Hoth r Hr).
    destruct (operands H' !! r), (operands H !! r); simpl in *; congruence. }
  assert (Hmono : forall q, is_Some (deref (operands H) q) ->
                            is_Some (deref (operands H') q)).
  { intros q [o Ho]. apply deref_Some in Ho as [Hq Ho].
    assert (Hqt : q <> this) by congruence.
    specialize (Hoth q Hqt). rewrite Ho in Hoth.
    destruct (operands H' !! q) as [o'|] eqn:E; [|discriminate].
    exists o'. apply deref_Some. auto. }
  assert (Hslot : load_slot H' (FirstUseOf (SILValue.getDef h)) = Some this).
  { simpl. rewrite Hv'. rewrite deref_insert_eq by exact HV0. reflexivity. }
  exists H'. split; [exact Hctor|].
  (* the operands of the new store, one case per shape of the old list *)
  assert (Hshape :
    operands H' !! 0 = None
    /\ is_Some (deref (operands H') this)
    /\ forall p o', operands H' !! p = Some o' ->
         operand_linked H' p o' = true).
  { destruct Hf as [Hnull|[hd Hhd]].
    - rewrite (ctor_fresh_null this owner h H vb Hthis Hvb Hnull) in Hctor.
      injection Hctor as <-. simpl in *.
      split; [rewrite lookup_insert_ne by congruence; exact Hz|].
      split; [rewrite deref_insert_eq by exact Hthis; eauto|].
      intros p o' Hp. destruct (decide (p = this)) as [->|Hpt].
      + rewrite lookup_insert_eq in Hp. injection Hp as <-.
        unfold operand_linked. simpl.
        apply bool_decide_eq_true. exact Hslot.
      + rewrite lookup_insert_ne in Hp by congruence.
        pose proof (Hops _ _ Hp) as Hl. unfold operand_linked in *.
        apply andb_true_iff in Hl as [Hl1 Hl2]. apply andb_true_iff. split.
        * eapply next_ok_mono; [|exact Hl1]. exact Hmono.
        * destruct (Back o') as [b|]; [|reflexivity].
          apply bool_decide_eq_true in Hl2. apply bool_decide_eq_true.
          eapply (load_slot_other H _ (SILValue.getDef h) this); try eassumption; try reflexivity.
          intros ->. simpl in Hl2. rewrite Hvb in Hl2.
          simpl in Hl2. injection Hl2 as Hl2.
          rewrite Hnull in Hl2. subst p. congruence.
    - pose proof Hhd as Hf. apply deref_Some in Hf as [Hf0 Hf].
      assert (Hft : this <> FirstUse vb) by congruence.
      rewrite (ctor_fresh_head this owner h H vb hd Hthis Hfresh Hvb Hhd)
        in Hctor.
      injection Hctor as <-. simpl in *.
      split; [rewrite !lookup_insert_ne by congruence; exact Hz|].
      split.
      { rewrite deref_insert_ne, deref_insert_eq by congruence. eauto. }
      intros p o' Hp. destruct (decide (p = FirstUse vb)) as [->|Hpf].
      + rewrite lookup_insert_eq in Hp. injection Hp as <-.
        pose proof (Hops _ _ Hf) as Hl. unfold operand_linked in *.
        apply andb_true_iff in Hl as [Hl1 _]. apply andb_true_iff. split.
        * simpl. eapply next_ok_mono; [|exact Hl1]. exact Hmono.
        * simpl. rewrite deref_insert_ne, deref_insert_eq by congruence.
          apply bool_decide_eq_true. reflexivity.
      + rewrite lookup_insert_ne in Hp by congruence.
        destruct (decide (p = this)) as [->|Hpt].
        * rewrite lookup_insert_eq in Hp. injection Hp as <-.
          unfold operand_linked. simpl.
          apply andb_true_iff. split.
          -- apply orb_true_iff. right. apply bool_decide_eq_true.
             rewrite deref_insert_eq by exact Hf0. eauto.
          -- apply bool_decide_eq_true. exact Hslot.
        * rewrite lookup_insert_ne in Hp by congruence.
          pose proof (Hops _ _ Hp) as Hl. unfold operand_linked in *.
          apply andb_true_iff in Hl as [Hl1 Hl2]. apply andb_true_iff. split.
          -- eapply next_ok_mono; [|exact Hl1]. exact Hmono.
          -- destruct (Back o') as [b|]; [|reflexivity].
             apply bool_decide_eq_true in Hl2. apply bool_decide_eq_true.
             eapply (load_slot_other H _ (SILValue.getDef h) this); try eassumption;
               try reflexivity.
             intros ->. simpl in Hl2. rewrite Hvb in Hl2.
             simpl in Hl2. injection Hl2 as Hl2. congruence. }
  destruct Hshape as (Hz' & Hlive & Hops').
  split; [exact Hz'|]. split; [|exact Hops'].
  intros V' vb' HV'. rewrite Hv' in HV'. unfold value_linked.
  destruct (decide (SILValue.getDef h = V')) as [<-|HVV].
  - rewrite lookup_insert_eq in HV'. injection HV' as <-. simpl.
    apply orb_true_iff. right. apply bool_decide_eq_true. exact Hlive.
  - rewrite lookup_insert_ne in HV' by exact HVV.
    eapply next_ok_mono; [exact Hmono|]. exact (Hvals _ _ HV').
Qed.

(** Every run of constructions on a store without operands leaves the
    links sound. *)
Lemma construct_all_well_linked (l : list NewOperand) :
  forall (pre : list NewOperand) (H : Store),
    run_inv pre H -> well_linked H ->
    NoDup (new_addr <$> (pre ++ l)) -> Forall (new_ok H) l ->
    exists H', construct_all l H = Some H' /\ well_linked H'.
Proof.
  induction l as [|e l' IH]; intros pre H Hinv Hwl Hnd Hok.
  - exists H. auto.
  - apply Forall_cons in Hok as [He Hok'].
    assert (Hnew : new_addr e ∉ new_addr <$> pre).
    { rewrite fmap_app in Hnd. apply NoDup_app in Hnd as (_ & Hdisj & _).
      intros Hin. apply (Hdisj _ Hin). simpl. apply list_elem_of_here. }
    destruct (ctor_step pre e H Hinv Hnew He) as (H1 & Hc & Hinv1 & Hlive1).
    assert (Hfresh : operands H !! new_addr e = None).
    { destruct Hinv as (Hdom & _).
      destruct (operands H !! new_addr e) eqn:E; [|reflexivity].
      exfalso. apply Hnew, Hdom. eauto. }
    destruct He as (_ & Hne & Hlv).
    destruct (ctor_well_linked (new_addr e) (new_owner e) (new_value e) H
                Hwl Hne Hfresh Hlv) as (H1' & Hc1 & Hwl1).
    rewrite Hc in Hc1. injection Hc1 as <-.
    assert (Hok1 : Forall (new_ok H1) l').
    { eapply Forall_impl; [exact Hok'|].
      intros x (Hx1 & Hx2 & Hx3).
      split; [exact Hx1|]. split; [exact Hx2|].
      apply Hlive1. exact Hx3. }
    destruct (IH (pre ++ [e]) H1 Hinv1 Hwl1) as (H' & Hc' & Hwl').
    + rewrite <- app_assoc. exact Hnd.
    + exact Hok1.
    + exists H'. simpl. rewrite Hc. simpl. auto.
Qed.

Lemma fresh_store_well_linked (H : Store) : fresh_store H -> well_linked H.
Proof.
  intros [He Hz]. split; [|split].
  - rewrite He. apply lookup_empty.
  - intros V vb Hv. unfold value_linked. rewrite (Hz V vb Hv). reflexivity.
  - rewrite He. apply map_Forall_empty.
Qed.

(** ** Unlinking *)

(** On a store with sound links [removeFromCurrent] runs to its end and
    changes no [FirstUse] and no [NextUse]: the store
    [( *Back )->NextUse = NextUse] writes the operand's own [NextUse] back
    into itself, and the only other store is to a [Back] member. *)
Lemma removeFromCurrent_keeps_forward_links (this : Z) (H : Store) :
  well_linked H -> is_Some (deref (operands H) this) ->
  exists H1,
    Operand.removeFromCurrent this H = Some H1
    /\ forall s, load_slot H1 s = load_slot H s.
Proof.
  intros (_ & _ & Hops) [o Ho]. unfold Operand.removeFromCurrent.
  rewrite Ho. simpl.
  pose proof Ho as Hl. apply deref_Some in Hl as [Hthis Hl].
  apply Hops in Hl. unfold operand_linked in Hl.
  apply andb_true_iff in Hl as [Hnext Hback].
  destruct (Back o) as [b|] eqn:Eb.
  2:{ exists H. auto. }
  apply bool_decide_eq_true in Hback. rewrite Hback. simpl.
  unfold store_NextUse. rewrite Ho. simpl.
  rewrite deref_insert_eq by exact Hthis. simpl.
  set (o1 := mkOperand (TheValue o) (NextUse o) (Back o) (Owner o)).
  assert (Hn1 : forall q,
            NextUse <$> deref (<[this := o1]> (operands H)) q
            = NextUse <$> deref (operands H) q)
    by (apply (fmap_deref_insert_same _ _ _ o); auto).
  destruct (Z.eqb_spec (NextUse o) 0) as [|Hnz].
  { eexists. split; [reflexivity|].
    intros [V|r]; simpl; [reflexivity | apply Hn1]. }
  apply orb_true_iff in Hnext as [Hz|Hlive]; [discriminate|].
  apply bool_decide_eq_true in Hlive.
  assert (Hlive1 : is_Some (deref (<[this := o1]> (operands H)) (NextUse o)))
    by (apply deref_insert_live; exact Hlive).
  destruct (store_Back_spec (NextUse o) (Back o)
              (mkStore (values H) (<[this := o1]> (operands H))) Hlive1)
    as (H2 & E2 & Hv2 & _ & Hn2).
  exists H2. split; [exact E2|].
  intros [V|r]; simpl.
  - rewrite Hv2. reflexivity.
  - rewrite Hn2. simpl. apply Hn1.
Qed.

(** C1 fails on the code: with one operand linked,
    [removeFromCurrent] leaves the store as it was, so the value's
    [FirstUse] still points at the operand and the enumeration still
    yields it; with three operands linked, removing the middle one leaves
    the previous operand's [NextUse] pointing at it, and the enumeration
    still yields all three. *)
Theorem removeFromCurrent_leaves_operand_linked :
  Operand.removeFromCurrent 8192 store_A = Some store_A
  /\ load_slot store_A (FirstUseOf 4096) = Some 8192
  /\ ValueBase.getUses store_A 4096 = Some [8192]
  /\ exists H',
       Operand.removeFromCurrent 8224 store_B = Some H'
       /\ load_slot store_B (NextUseOf 8256) = Some 8224
       /\ load_slot H' (NextUseOf 8256) = Some 8224
       /\ ValueBase.getUses H' 4096 = Some [8256; 8224; 8192].
Proof.
  split; [vm_compute; reflexivity|].
  split; [reflexivity|]. split; [reflexivity|].
  eexists. split; [vm_compute; reflexivity|].
  split; [reflexivity|]. split; reflexivity.
Qed.

(** C2 fails on the code: in scenario A the use list is
    non-empty while the operand lives, and it is still non-empty after the
    operand is destroyed: [FirstUse] keeps the address of the dead
    operand.  Retargeting the operand to another value leaves it in the
    first value's use list as well. *)
Theorem dtor_leaves_use_list_nonempty :
  ValueBase.use_empty store_A 4096 = Some false
  /\ ValueBase.getUses store_A 4096 = Some [8192]
  /\ Operand.get store_A 8192 = Some V_0
  /\ (exists H',
        Operand.dtor 8192 store_A = Some H'
        /\ Operand.get H' 8192 = None
        /\ load_slot H' (FirstUseOf 4096) = Some 8192
        /\ ValueBase.use_empty H' 4096 = Some false)
  /\ (exists H',
        Operand.set 8192 W_0 store_A2 = Some H'
        /\ Operand.get H' 8192 = Some W_0
        /\ ValueBase.getUses H' 4160 = Some [8192]
        /\ ValueBase.getUses H' 4096 = Some [8192]).
Proof.
  split; [reflexivity|]. split; [reflexivity|]. split; [reflexivity|].
  split.
  - eexists. split; [vm_compute; reflexivity|].
    split; [reflexivity|]. split; reflexivity.
  - eexists. split; [vm_compute; reflexivity|].
    split; [reflexivity|]. split; reflexivity.
Qed.

(** After the two retargetings the oldest operand's [Back] addresses a
    [NextUse] member that holds the null pointer, so unlinking it reads
    through null: neither [set] nor the destructor has a defined result. *)
Lemma unlink_after_retargets_undefined :
  exists H,
    retargeted = Some H
    /\ Back <$> deref (operands H) 8192 = Some (Some (NextUseOf 8256))
    /\ load_slot H (NextUseOf 8256) = Some 0
    /\ Operand.set 8192 W_0 H = None
    /\ Operand.dtor 8192 H = None.
Proof.
  eexists. split; [vm_compute; reflexivity|].
  split; [reflexivity|]. split; [reflexivity|]. split; reflexivity.
Qed.

(** * Further properties of the header *)

(** ** Handles as packed words *)

Lemma ctor_Some_fits (V n : Z) (h : SILValue.t) :
  SILValue.ctor V n = Some h -> 0 <= n < 2.
Proof.
  intros Hc. destruct (Z_lt_le_dec n 2) as [Hlt|Hge].
  - unfold SILValue.ctor in Hc.
    destruct (Z.eqb_spec n
      (SILValue.getResultNumber
         (SILValue.Build (PointerIntPair.setPointerAndInt V n)))) as [Em|];
      [|discriminate].
    pose proof (getInt_range (PointerIntPair.setPointerAndInt V n)).
    unfold SILValue.getResultNumber in Em. simpl in Em. lia.
  - rewrite ctor_overflow in Hc by exact Hge. discriminate.
Qed.

(** X1: the constructor and the two accessors are inverse to each other:
    a handle built from an aligned pointer and a number that fits reads
    both back, two such constructions give the same handle only from the
    same arguments, and every handle word is rebuilt by the constructor
    from what its accessors return. *)
Theorem SILValue_ctor_accessors_inverse :
  (forall (V n V' n' : Z) (h : SILValue.t),
     ptr_ok V -> ptr_ok V' ->
     SILValue.ctor V n = Some h -> SILValue.ctor V' n' = Some h ->
     V = V' /\ n = n'
     /\ SILValue.getDef h = V /\ SILValue.getResultNumber h = n
     /\ SILValue.handle_ok h)
  /\ (forall h : SILValue.t,
        SILValue.handle_ok h ->
        ptr_ok (SILValue.getDef h)
        /\ SILValue.ctor (SILValue.getDef h) (SILValue.getResultNumber h)
           = Some h).
Proof.
  split; [|exact handle_ok_ctor].
  intros V n V' n' h HV HV' E E'.
  pose proof (ctor_Some_fits _ _ _ E) as Hn.
  pose proof (ctor_Some_fits _ _ _ E') as Hn'.
  rewrite ctor_packed in E by assumption.
  rewrite ctor_packed in E' by assumption.
  injection E as E. injection E' as E'.
  assert (HD : SILValue.getDef h = V).
  { rewrite <- E. apply getPointer_packed; assumption. }
  assert (HD' : SILValue.getDef h = V').
  { rewrite <- E'. apply getPointer_packed; assumption. }
  assert (HR : SILValue.getResultNumber h = n).
  { rewrite <- E. apply getInt_packed; assumption. }
  assert (HR' : SILValue.getResultNumber h = n').
  { rewrite <- E'. apply getInt_packed; assumption. }
  repeat split; try congruence.
  - rewrite <- E. simpl. destruct HV as [HVr HVa]. unfold uintptr_bits in *.
    revert HVa. Z.div_mod_to_equations. lia.
  - rewrite <- E. simpl. destruct HV as [HVr HVa]. unfold uintptr_bits in *.
    revert HVa. Z.div_mod_to_equations. lia.
  - rewrite <- E. simpl. destruct HV as [HVr HVa].
    revert HVa. Z.div_mod_to_equations. lia.
Qed.

Lemma SILValue_ctor_accessors_inverse_witness :
  SILValue.getDef V_1 = 4096 /\ SILValue.getResultNumber V_1 = 1
  /\ SILValue.ctor (SILValue.getDef V_1) (SILValue.getResultNumber V_1)
     = Some V_1.
Proof.
  assert (Hp : ptr_ok 4096)
    by (unfold ptr_ok, uintptr_bits; split; [lia | reflexivity]).
  destruct (proj1 SILValue_ctor_accessors_inverse 4096 1 4096 1 V_1 Hp Hp
              eq_refl eq_refl) as (_ & _ & HD & HR & Hok).
  split; [exact HD|]. split; [exact HR|].
  apply (proj2 SILValue_ctor_accessors_inverse V_1 Hok).
Defined.

(** X2: the opaque pointer of a handle built from an aligned pointer is
    in pointer range, has its [NumLowBitsAvailable] (one) low bit clear,
    and converts back to the same handle. *)
Theorem PointerLikeTypeTraits_low_bit_available (V n : Z) (h : SILValue.t) :
  ptr_ok V -> SILValue.ctor V n = Some h ->
  0 <= PointerLikeTypeTraits.getAsVoidPointer h < 2 ^ uintptr_bits
  /\ PointerLikeTypeTraits.getAsVoidPointer h
       mod 2 ^ PointerLikeTypeTraits.NumLowBitsAvailable = 0
  /\ PointerLikeTypeTraits.getFromVoidPointer
       (PointerLikeTypeTraits.getAsVoidPointer h) = h.
Proof.
  intros HV Hc. destruct (ctor_handle_ok V n h HV Hc) as [Hr He].
  destruct h as [w]. simpl in *.
  split; [exact Hr|]. split; [exact He | reflexivity].
Qed.

Lemma PointerLikeTypeTraits_low_bit_available_witness :
  PointerLikeTypeTraits.getAsVoidPointer V_1 mod 2 = 0
  /\ PointerLikeTypeTraits.getFromVoidPointer
       (PointerLikeTypeTraits.getAsVoidPointer V_1) = V_1.
Proof.
  assert (Hp : ptr_ok 4096)
    by (unfold ptr_ok, uintptr_bits; split; [lia | reflexivity]).
  destruct (PointerLikeTypeTraits_low_bit_available 4096 1 V_1 Hp eq_refl)
    as (_ & Hlow & Hback).
  split; [exact Hlow | exact Hback].
Defined.

(** X3: a handle is valid exactly when its identity pointer is not null,
    whatever its result number; in particular the default [SILValue()] is
    invalid. *)
Theorem SILValue_isValid_nonnull (V n : Z) (h : SILValue.t) :
  ptr_ok V -> SILValue.ctor V n = Some h ->
  (SILValue.isValid h = true <-> V <> 0)
  /\ (exists d, SILValue.ctor 0 0 = Some d /\ SILValue.isValid d = false).
Proof.
  intros HV Hc. split.
  - pose proof (ctor_Some_fits _ _ _ Hc) as Hn.
    rewrite ctor_packed in Hc by assumption. injection Hc as <-.
    unfold SILValue.isValid, SILValue.getDef. simpl.
    rewrite getPointer_packed by assumption.
    rewrite negb_true_iff, Z.eqb_neq. reflexivity.
  - eexists. split; reflexivity.
Qed.

Lemma SILValue_isValid_nonnull_witness :
  SILValue.isValid V_1 = true.
Proof.
  assert (Hp : ptr_ok 4096)
    by (unfold ptr_ok, uintptr_bits; split; [lia | reflexivity]).
  apply (proj1 (SILValue_isValid_nonnull 4096 1 V_1 Hp eq_refl)). lia.
Defined.

(** X4: when the two reserved pointers are aligned and different, the
    empty key and the tombstone key are constructed without tripping the
    assertion, they are different keys, and neither equals a handle of
    any result of a value at another address. *)
Theorem DenseMapInfo_sentinels_distinct (PtrEmptyKey PtrTombstoneKey : Z) :
  ptr_ok PtrEmptyKey -> ptr_ok PtrTombstoneKey ->
  PtrEmptyKey <> PtrTombstoneKey ->
  exists e t,
    getEmptyKey PtrEmptyKey = Some e
    /\ getTombstoneKey PtrTombstoneKey = Some t
    /\ SILValue.getDef e = PtrEmptyKey
    /\ SILValue.getDef t = PtrTombstoneKey
    /\ isEqual e t = false
    /\ forall (V n : Z) (h : SILValue.t),
         ptr_ok V -> SILValue.ctor V n = Some h ->
         V <> PtrEmptyKey -> V <> PtrTombstoneKey ->
         isEqual h e = false /\ isEqual h t = false.
Proof.
  intros HE HT Hne.
  exists (SILValue.Build (PtrEmptyKey + 2 * 0)),
         (SILValue.Build (PtrTombstoneKey + 2 * 0)).
  assert (DE : SILValue.getDef (SILValue.Build (PtrEmptyKey + 2 * 0))
               = PtrEmptyKey)
    by (apply getPointer_packed; [assumption | lia]).
  assert (DT : SILValue.getDef (SILValue.Build (PtrTombstoneKey + 2 * 0))
               = PtrTombstoneKey)
    by (apply getPointer_packed; [assumption | lia]).
  assert (Hdiff : forall a b : SILValue.t,
            SILValue.getDef a <> SILValue.getDef b -> isEqual a b = false).
  { intros [x] [y] Hd. unfold isEqual, SILValue.eqb, PointerIntPair.eqb.
    simpl. apply Z.eqb_neq. intros ->. apply Hd. reflexivity. }
  split; [apply ctor_packed; [assumption | lia]|].
  split; [apply ctor_packed; [assumption | lia]|].
  split; [exact DE|]. split; [exact DT|]. split.
  - apply Hdiff. rewrite DE, DT. exact Hne.
  - intros V n h HV Hc HnE HnT.
    pose proof (ctor_Some_fits _ _ _ Hc) as Hn.
    rewrite ctor_packed in Hc by assumption. injection Hc as <-.
    assert (DV : SILValue.getDef (SILValue.Build (V + 2 * n)) = V)
      by (apply getPointer_packed; assumption).
    split; apply Hdiff; rewrite DV; [rewrite DE | rewrite DT]; assumption.
Qed.

Lemma DenseMapInfo_sentinels_distinct_witness :
  exists e t,
    getEmptyKey (2 ^ 64 - 4) = Some e
    /\ getTombstoneKey (2 ^ 64 - 8) = Some t
    /\ isEqual e t = false.
Proof.
  destruct (DenseMapInfo_sentinels_distinct (2 ^ 64 - 4) (2 ^ 64 - 8))
    as (e & t & He & Ht & _ & _ & Hd & _).
  - unfold ptr_ok, uintptr_bits. split; [lia | reflexivity].
  - unfold ptr_ok, uintptr_bits. split; [lia | reflexivity].
  - lia.
  - exists e, t. auto.
Defined.

(** ** What the member stores leave alone *)

Lemma store_Back_inv (p : Z) (b : option UseSlot) (H H' : Store) :
  store_Back p b H = Some H' ->
  values H' = values H
  /\ (forall q, TheValue <$> deref (operands H') q
                = TheValue <$> deref (operands H) q)
  /\ (forall q, Owner <$> deref (operands H') q
                = Owner <$> deref (operands H) q)
  /\ (forall q, NextUse <$> deref (operands H') q
                = NextUse <$> deref (operands H) q)
  /\ (forall q, q <> p -> deref (operands H') q = deref (operands H) q)
  /\ Back <$> deref (operands H') p = Some b.
Proof.
  unfold store_Back. destruct (deref (operands H) p) as [o|] eqn:Ho;
    [|discriminate].
  simpl. intros [= <-]. simpl.
  pose proof Ho as Hp. apply deref_Some in Hp as [Hp _].
  split; [reflexivity|].
  split; [intros q; apply (fmap_deref_insert_same _ _ _ o); auto|].
  split; [intros q; apply (fmap_deref_insert_same _ _ _ o); auto|].
  split; [intros q; apply (fmap_deref_insert_same _ _ _ o); auto|].
  split; [intros q Hq; apply deref_insert_ne; congruence|].
  rewrite deref_insert_eq by exact Hp. reflexivity.
Qed.

Lemma store_NextUse_inv (p n : Z) (H H' : Store) :
  store_NextUse p n H = Some H' ->
  values H' = values H
  /\ (forall q, TheValue <$> deref (operands H') q
                = TheValue <$> deref (operands H) q)
  /\ (forall q, Owner <$> deref (operands H') q
                = Owner <$> deref (operands H) q)
  /\ (forall q, Back <$> deref (operands H') q
                = Back <$> deref (operands H) q)
  /\ (forall q, q <> p -> deref (operands H') q = deref (operands H) q)
  /\ NextUse <$> deref (operands H') p = Some n.
Proof.
  unfold store_NextUse. destruct (deref (operands H) p) as [o|] eqn:Ho;
    [|discriminate].
  simpl. intros [= <-]. simpl.
  pose proof Ho as Hp. apply deref_Some in Hp as [Hp _].
  split; [reflexivity|].
  split; [intros q; apply (fmap_deref_insert_same _ _ _ o); auto|].
  split; [intros q; apply (fmap_deref_insert_same _ _ _ o); auto|].
  split; [intros q; apply (fmap_deref_insert_same _ _ _ o); auto|].
  split; [intros q Hq; apply deref_insert_ne; congruence|].
  rewrite deref_insert_eq by exact Hp. reflexivity.
Qed.

Lemma store_TheValue_inv (p : Z) (v : SILValue.t) (H H' : Store) :
  store_TheValue p v H = Some H' ->
  values H' = values H
  /\ (forall q, Owner <$> deref (operands H') q
                = Owner <$> deref (operands H) q)
  /\ (forall q, q <> p -> deref (operands H') q = deref (operands H) q)
  /\ TheValue <$> deref (operands H') p = Some v.
Proof.
  unfold store_TheValue. destruct (deref (operands H) p) as [o|] eqn:Ho;
    [|discriminate].
  simpl. intros [= <-]. simpl.
  pose proof Ho as Hp. apply deref_Some in Hp as [Hp _].
  split; [reflexivity|].
  split; [intros q; apply (fmap_deref_insert_same _ _ _ o); auto|].
  split; [intros q Hq; apply deref_insert_ne; congruence|].
  rewrite deref_insert_eq by exact Hp. reflexivity.
Qed.

Lemma store_FirstUse_inv (V f : Z) (H H' : Store) :
  store_FirstUse V f H = Some H' ->
  operands H' = operands H
  /\ (forall W, is_Some (deref (values H') W) <-> is_Some (deref (values H) W))
  /\ (forall W, W <> V -> deref (values H') W = deref (values H) W).
Proof.
  unfold store_FirstUse. destruct (deref (values H) V) as [vb|] eqn:Hv;
    [|discriminate].
  simpl. intros [= <-]. simpl.
  pose proof Hv as HV. apply deref_Some in HV as [HV _].
  split; [reflexivity|]. split.
  - intros W. destruct (decide (V = W)) as [<-|HVW].
    + rewrite deref_insert_eq, Hv by exact HV. split; eauto.
    + rewrite deref_insert_ne by exact HVW. reflexivity.
  - intros W HW. apply deref_insert_ne. congruence.
Qed.

(** [removeFromCurrent] writes no [FirstUse], no [TheValue] and no
    [Owner]. *)
Lemma removeFromCurrent_inv (this : Z) (H H' : Store) :
  Operand.removeFromCurrent this H = Some H' ->
  values H' = values H
  /\ (forall q, TheValue <$> deref (operands H') q
                = TheValue <$> deref (operands H) q)
  /\ (forall q, Owner <$> deref (operands H') q
                = Owner <$> deref (operands H) q).
Proof.
  unfold Operand.removeFromCurrent.
  destruct (deref (operands H) this) as [o|]; [|discriminate]. simpl.
  destruct (Back o) as [b|]; [|intros [= <-]; auto].
  destruct (load_slot H b) as [p|]; [|discriminate]. simpl.
  destruct (store_NextUse p (NextUse o) H) as [H1|] eqn:E1; [|discriminate].
  simpl. apply store_NextUse_inv in E1 as (Hv1 & Ht1 & Ho1 & _).
  destruct (deref (operands H1) this) as [o1|]; [|discriminate]. simpl.
  destruct (NextUse o1 =? 0); [intros [= <-]; auto|].
  intros E2. apply store_Back_inv in E2 as (Hv2 & Ht2 & Ho2 & _).
  split; [congruence|].
  split; intros q; [rewrite Ht2; apply Ht1 | rewrite Ho2; apply Ho1].
Qed.

(** [insertIntoCurrent] writes no [TheValue] and no [Owner], and only
    the [FirstUse] of the operand's target. *)
Lemma insertIntoCurrent_inv (this : Z) (H H' : Store) :
  Operand.insertIntoCurrent this H = Some H' ->
  (forall q, TheValue <$> deref (operands H') q
             = TheValue <$> deref (operands H) q)
  /\ (forall q, Owner <$> deref (operands H') q
                = Owner <$> deref (operands H) q)
  /\ (forall W, is_Some (deref (values H') W) <-> is_Some (deref (values H) W))
  /\ (forall o W, deref (operands H) this = Some o ->
                  W <> SILValue.getDef (TheValue o) ->
                  deref (values H') W = deref (values H) W).
Proof.
  unfold Operand.insertIntoCurrent.
  destruct (deref (operands H) this) as [o|] eqn:Ho; [|discriminate]. simpl.
  destruct (deref (values H) (SILValue.getDef (TheValue o))) as [vb|];
    [|discriminate].
  simpl.
  destruct (store_Back this (Some (FirstUseOf (SILValue.getDef (TheValue o))))
              H) as [H1|] eqn:E1; [|discriminate].
  simpl. apply store_Back_inv in E1 as (Hv1 & Ht1 & Ho1 & _).
  destruct (FirstUse <$> deref (values H1) (SILValue.getDef (TheValue o)))
    as [f|]; [|discriminate].
  simpl.
  destruct (store_NextUse this f H1) as [H2|] eqn:E2; [|discriminate].
  simpl. apply store_NextUse_inv in E2 as (Hv2 & Ht2 & Ho2 & _).
  destruct (deref (operands H2) this) as [o2|]; [|discriminate]. simpl.
  assert (Hfin : forall H3,
            values H3 = values H ->
            (forall q, TheValue <$> deref (operands H3) q
                       = TheValue <$> deref (operands H) q) ->
            (forall q, Owner <$> deref (operands H3) q
                       = Owner <$> deref (operands H) q) ->
            store_FirstUse (SILValue.getDef (TheValue o)) this H3 = Some H' ->
            (forall q, TheValue <$> deref (operands H') q
                       = TheValue <$> deref (operands H) q)
            /\ (forall q, Owner <$> deref (operands H') q
                          = Owner <$> deref (operands H) q)
            /\ (forall W, is_Some (deref (values H') W)
                          <-> is_Some (deref (values H) W))
            /\ (forall o' W, Some o = Some o' ->
                  W <> SILValue.getDef (TheValue o') ->
                  deref (values H') W = deref (values H) W)).
  { intros H3 Hv3 Ht3 Ho3 E3.
    apply store_FirstUse_inv in E3 as (Hops & Hlive & Hoth).
    rewrite Hops. split; [exact Ht3|]. split; [exact Ho3|].
    rewrite <- Hv3. split; [exact Hlive|].
    intros o' W [= <-] HW. apply Hoth. exact HW. }
  destruct (NextUse o2 =? 0); simpl.
  - apply Hfin; [congruence | |].
    + intros q. rewrite Ht2. apply Ht1.
    + intros q. rewrite Ho2. apply Ho1.
  - destruct (store_Back (NextUse o2) (Some (NextUseOf this)) H2)
      as [H3|] eqn:E3; [|discriminate].
    simpl. apply store_Back_inv in E3 as (Hv3 & Ht3 & Ho3 & _).
    apply Hfin; [congruence | |].
    + intros q. rewrite Ht3, Ht2. apply Ht1.
    + intros q. rewrite Ho3, Ho2. apply Ho1.
Qed.

(** ** Retargeting touches one operand's target only *)

(** X5: whenever [set] runs to its end, the operand reads back the new
    handle, every other operand reads back the handle it had, no operand
    changes its user, and the same values are live. *)
Theorem Operand_set_frame (this : Z) (h : SILValue.t) (H H' : Store) :
  Operand.set this h H = Some H' ->
  Operand.get H' this = Some h
  /\ (forall q, q <> this -> Operand.get H' q = Operand.get H q)
  /\ (forall q, Operand.getUser H' q = Operand.getUser H q)
  /\ (forall W, is_Some (deref (values H') W) <-> is_Some (deref (values H) W)).
Proof.
  intros Hset. split; [eapply set_Some_get; exact Hset|].
  unfold Operand.set in Hset.
  destruct (Operand.removeFromCurrent this H) as [H1|] eqn:E1;
    [|discriminate].
  simpl in Hset. apply removeFromCurrent_inv in E1 as (Hv1 & Ht1 & Ho1).
  destruct (store_TheValue this h H1) as [H2|] eqn:E2; [|discriminate].
  simpl in Hset. apply store_TheValue_inv in E2 as (Hv2 & Ho2 & Hoth2 & _).
  apply insertIntoCurrent_inv in Hset as (Ht3 & Ho3 & Hl3 & _).
  unfold Operand.get, Operand.getUser. split; [|split].
  - intros q Hq. rewrite Ht3, (Hoth2 q Hq). apply Ht1.
  - intros q. rewrite Ho3, Ho2. apply Ho1.
  - intros W. rewrite Hl3, Hv2, Hv1. reflexivity.
Qed.

Lemma Operand_set_frame_witness :
  exists H',
    Operand.set 8224 V_0 store_B = Some H'
    /\ Operand.get H' 8224 = Some V_0
    /\ Operand.get H' 8192 = Operand.get store_B 8192
    /\ Operand.getUser H' 8224 = Operand.getUser store_B 8224.
Proof.
  assert (Hset : exists H', Operand.set 8224 V_0 store_B = Some H')
    by (eexists; vm_compute; reflexivity).
  destruct Hset as [H' Hset]. exists H'.
  destruct (Operand_set_frame 8224 V_0 store_B H' Hset)
    as (Hg & Hoth & Hown & _).
  split; [exact Hset|]. split; [exact Hg|]. split.
  - apply Hoth. lia.
  - apply Hown.
Defined.

(** ** Construction links at the head *)

Lemma ctor_links_at_head
    (this owner : Z) (h : SILValue.t) (H : Store) (vb : ValueBase) :
  this <> 0 -> operands H !! this = None ->
  deref (values H) (SILValue.getDef h) = Some vb ->
  FirstUse vb = 0 \/ is_Some (deref (operands H) (FirstUse vb)) ->
  exists H',
    Operand.ctor this owner h H = Some H'
    /\ Operand.get H' this = Some h
    /\ Operand.getUser H' this = Some owner
    /\ ValueBase.use_begin H' (SILValue.getDef h) = Some this
    /\ ValueBase.use_empty H' (SILValue.getDef h) = Some false
    /\ load_slot H' (NextUseOf this) = Some (FirstUse vb)
    /\ Back <$> deref (operands H') this
       = Some (Some (FirstUseOf (SILValue.getDef h)))
    /\ (FirstUse vb <> 0 ->
        Back <$> deref (operands H') (FirstUse vb)
        = Some (Some (NextUseOf this))).
Proof.
  intros Hthis Hfresh Hv Hf.
  pose proof Hv as HV. apply deref_Some in HV as [HV _].
  assert (Hne : (this =? 0) = false) by (apply Z.eqb_neq; exact Hthis).
  destruct Hf as [Hnull|[hd Hhd]].
  - eexists. split; [apply (ctor_fresh_null _ _ _ _ vb); assumption|].
    unfold Operand.get, Operand.getUser, ValueBase.use_begin,
      ValueBase.use_empty.
    simpl. rewrite !deref_insert_eq by assumption. simpl. rewrite Hne.
    rewrite Hnull. repeat split; try reflexivity. intros Hc. congruence.
  - pose proof Hhd as Hf. apply deref_Some in Hf as [Hf0 Hf].
    assert (Hft : FirstUse vb <> this) by congruence.
    eexists. split; [apply (ctor_fresh_head _ _ _ _ vb hd); assumption|].
    unfold Operand.get, Operand.getUser, ValueBase.use_begin,
      ValueBase.use_empty.
    simpl. rewrite !(deref_insert_ne _ (FirstUse vb) this) by exact Hft.
    rewrite !deref_insert_eq by assumption. simpl. rewrite Hne.
    repeat split; reflexivity.
Qed.

(** X6: constructing an operand in fresh storage, with a live target
    whose head pointer is null or live, runs to its end; the operand
    reads back its handle and its user, it is the new head of the
    target's use list, its [NextUse] is the old head and its [Back]
    addresses the target's [FirstUse]; the old head's [Back] now addresses
    the new operand's [NextUse]. *)
Theorem Operand_ctor_links_at_head
    (this owner : Z) (h : SILValue.t) (H : Store) (vb : ValueBase) :
  this <> 0 -> operands H !! this = None ->
  deref (values H) (SILValue.getDef h) = Some vb ->
  FirstUse vb = 0 \/ is_Some (deref (operands H) (FirstUse vb)) ->
  exists H',
    Operand.ctor this owner h H = Some H'
    /\ Operand.get H' this = Some h
    /\ Operand.getUser H' this = Some owner
    /\ ValueBase.use_begin H' (SILValue.getDef h) = Some this
    /\ ValueBase.use_empty H' (SILValue.getDef h) = Some false
    /\ load_slot H' (NextUseOf this) = Some (FirstUse vb)
    /\ Back <$> deref (operands H') this
       = Some (Some (FirstUseOf (SILValue.getDef h)))
    /\ (FirstUse vb <> 0 ->
        Back <$> deref (operands H') (FirstUse vb)
        = Some (Some (NextUseOf this))).
Proof. apply ctor_links_at_head. Qed.

Lemma Operand_ctor_links_at_head_witness :
  exists H',
    Operand.ctor 8224 512 V_1 store_A = Some H'
    /\ Operand.get H' 8224 = Some V_1
    /\ ValueBase.use_begin H' 4096 = Some 8224
    /\ load_slot H' (NextUseOf 8224) = Some 8192
    /\ Back <$> deref (operands H') 8192 = Some (Some (NextUseOf 8224)).
Proof.
  destruct (Operand_ctor_links_at_head 8224 512 V_1 store_A (mkValueBase 8192))
    as (H' & Hc & Hg & _ & Hb & _ & Hn & _ & Hold).
  - lia.
  - reflexivity.
  - reflexivity.
  - right. eexists. reflexivity.
  - exists H'. split; [exact Hc|]. split; [exact Hg|]. split; [exact Hb|].
    split; [exact Hn|]. apply Hold. simpl. lia.
Defined.

Lemma ctor_frame
    (this owner : Z) (h : SILValue.t) (H H' : Store) (vb : ValueBase) :
  this <> 0 -> operands H !! this = None ->
  deref (values H) (SILValue.getDef h) = Some vb ->
  FirstUse vb = 0 \/ is_Some (deref (operands H) (FirstUse vb)) ->
  Operand.ctor this owner h H = Some H' ->
  (forall q, q <> this ->
     Operand.get H' q = Operand.get H q
     /\ Operand.getUser H' q = Operand.getUser H q
     /\ load_slot H' (NextUseOf q) = load_slot H (NextUseOf q))
  /\ (forall q, q <> this -> q <> FirstUse vb ->
        deref (operands H') q = deref (operands H) q)
  /\ (forall W, W <> SILValue.getDef h ->
        deref (values H') W = deref (values H) W).
Proof.
  intros Hthis Hfresh Hv Hf Hc.
  destruct Hf as [Hnull|[hd Hhd]].
  - rewrite (ctor_fresh_null _ _ _ _ vb Hthis Hv Hnull) in Hc.
    injection Hc as <-.
    unfold Operand.get, Operand.getUser. simpl.
    split; [|split].
    + intros q Hq. rewrite !deref_insert_ne by congruence. auto.
    + intros q Hq _. apply deref_insert_ne. congruence.
    + intros W HW. apply deref_insert_ne. congruence.
  - pose proof Hhd as Hf. apply deref_Some in Hf as [Hf0 Hf].
    rewrite (ctor_fresh_head _ _ _ _ vb hd Hthis Hfresh Hv Hhd) in Hc.
    injection Hc as <-.
    unfold Operand.get, Operand.getUser. simpl.
    split; [|split].
    + intros q Hq. destruct (decide (q = FirstUse vb)) as [->|Hqf].
      * rewrite !deref_insert_eq by exact Hf0. rewrite Hhd. auto.
      * rewrite !(deref_insert_ne _ (FirstUse vb) q) by congruence.
        rewrite !deref_insert_ne by congruence. auto.
    + intros q Hq Hqf. rewrite !deref_insert_ne by congruence. reflexivity.
    + intros W HW. apply deref_insert_ne. congruence.
Qed.

(** X7: such a construction changes nothing else: every other operand
    keeps its handle, its user and its [NextUse], every operand other
    than the old head keeps its [Back], and every other value keeps its
    [FirstUse]. *)
Theorem Operand_ctor_frame
    (this owner : Z) (h : SILValue.t) (H H' : Store) (vb : ValueBase) :
  this <> 0 -> operands H !! this = None ->
  deref (values H) (SILValue.getDef h) = Some vb ->
  FirstUse vb = 0 \/ is_Some (deref (operands H) (FirstUse vb)) ->
  Operand.ctor this owner h H = Some H' ->
  (forall q, q <> this ->
     Operand.get H' q = Operand.get H q
     /\ Operand.getUser H' q = Operand.getUser H q
     /\ load_slot H' (NextUseOf q) = load_slot H (NextUseOf q))
  /\ (forall q, q <> this -> q <> FirstUse vb ->
        deref (operands H') q = deref (operands H) q)
  /\ (forall W, W <> SILValue.getDef h ->
        deref (values H') W = deref (values H) W).
Proof. apply ctor_frame. Qed.

Lemma Operand_ctor_frame_witness :
  exists H',
    Operand.ctor 8224 512 V_1 store_A2 = Some H'
    /\ Operand.get H' 8192 = Operand.get store_A2 8192
    /\ Operand.getUser H' 8192 = Operand.getUser store_A2 8192
    /\ deref (values H') 4160 = deref (values store_A2) 4160.
Proof.
  assert (Hc : exists H', Operand.ctor 8224 512 V_1 store_A2 = Some H')
    by (eexists; vm_compute; reflexivity).
  destruct Hc as [H' Hc]. exists H'.
  destruct (Operand_ctor_frame 8224 512 V_1 store_A2 H' (mkValueBase 8192))
    as (Hq & _ & HW); try reflexivity; try lia; try exact Hc.
  - right. eexists. reflexivity.
  - destruct (Hq 8192) as (Hg & Hu & _); [lia|].
    split; [exact Hc|]. split; [exact Hg|]. split; [exact Hu|].
    apply HW. intros E. vm_compute in E. discriminate E.
Defined.

(** ** Constructions keep the use lists sound *)

(** X8: a construction in fresh storage with a live target keeps the
    links sound: if before it no object sits at null, every head and
    every [NextUse] is null or live and every non-null [Back] addresses a
    pointer to its own operand, then the construction runs to its end and
    the same holds afterwards. *)
Theorem Operand_ctor_keeps_links_sound
    (this owner : Z) (h : SILValue.t) (H : Store) :
  well_linked H -> this <> 0 -> operands H !! this = None ->
  is_Some (deref (values H) (SILValue.getDef h)) ->
  exists H', Operand.ctor this owner h H = Some H' /\ well_linked H'.
Proof. apply ctor_well_linked. Qed.

Lemma Operand_ctor_keeps_links_sound_witness :
  exists H', Operand.ctor 8224 512 V_1 store_A = Some H' /\ well_linked H'.
Proof.
  apply Operand_ctor_keeps_links_sound.
  - unfold well_linked. refine (bool_decide_unpack _ _). vm_compute. exact I.
  - lia.
  - reflexivity.
  - eexists. reflexivity.
Defined.

(** ** Operands without a target *)

(** X9: an operand constructed without a target in fresh storage holds
    the invalid handle and touches no use list; destroying it gives back
    the store as it was, and retargeting it gives the store that
    constructing it with that target would have given. *)
Theorem Operand_unlinked_round_trip (this owner : Z) (H : Store) :
  this <> 0 -> operands H !! this = None ->
  exists H1 d,
    Operand.ctor_unlinked this owner H = Some H1
    /\ Operand.get H1 this = Some d /\ SILValue.isValid d = false
    /\ Operand.getUser H1 this = Some owner
    /\ values H1 = values H
    /\ Operand.removeFromCurrent this H1 = Some H1
    /\ Operand.dtor this H1 = Some H
    /\ forall h, Operand.set this h H1 = Operand.ctor this owner h H.
Proof.
  intros Hthis Hfresh.
  unfold Operand.ctor_unlinked.
  change (SILValue.ctor 0 0) with (Some (SILValue.Build 0)). simpl.
  unfold Operand.place.
  destruct (decide (this = 0)) as [|_]; [congruence|].
  eexists. exists (SILValue.Build 0).
  split; [reflexivity|].
  unfold Operand.get, Operand.getUser, Operand.dtor,
    Operand.removeFromCurrent, Operand.set, Operand.ctor, Operand.place.
  simpl. rewrite !deref_insert_eq by exact Hthis. simpl.
  destruct (decide (this = 0)) as [|_]; [congruence|].
  repeat split.
  - rewrite delete_insert_id by exact Hfresh. destruct H; reflexivity.
  - intros h. unfold Operand.removeFromCurrent. simpl.
    rewrite deref_insert_eq by exact Hthis. simpl.
    unfold store_TheValue. simpl.
    rewrite deref_insert_eq by exact Hthis. simpl.
    rewrite insert_insert_eq. reflexivity.
Qed.

Lemma Operand_unlinked_round_trip_witness :
  exists H1,
    Operand.ctor_unlinked 8192 512 store_V = Some H1
    /\ Operand.dtor 8192 H1 = Some store_V
    /\ Operand.set 8192 V_0 H1 = Some store_A.
Proof.
  destruct (Operand_unlinked_round_trip 8192 512 store_V)
    as (H1 & d & Hc & _ & _ & _ & _ & _ & Hd & Hs).
  - lia.
  - reflexivity.
  - exists H1. split; [exact Hc|]. split; [exact Hd|].
    rewrite Hs. vm_compute. reflexivity.
Defined.

(** ** The filter of a result-filtered iterator *)

Lemma skip_result (H : Store) (rn : Z) (fuel : nat) :
  forall cur c,
    ValueUseIterator.skip fuel H cur rn = Some c ->
    c = 0 \/ (is_Some (deref (operands H) c)
              /\ targets_result H rn c = true).
Proof.
  induction fuel as [|fuel IH]; intros cur c; [discriminate|].
  simpl. destruct (Z.eqb_spec cur 0) as [->|Hne].
  - intros [= <-]. left. reflexivity.
  - destruct (deref (operands H) cur) as [o|] eqn:Ho; [|discriminate].
    simpl.
    destruct (SILValue.getResultNumber (TheValue o) =? rn) eqn:Em; simpl.
    + intros [= <-]. right. split; [eauto|].
      rewrite (targets_result_live H rn cur o Ho). exact Em.
    + apply IH.
Qed.

Lemma advance_result (H : Store) (rn : Z) (fuel : nat) :
  forall next c,
    ValueUseIterator.advance fuel H next rn = Some c ->
    c = 0 \/ (is_Some (deref (operands H) c)
              /\ targets_result H rn c = true).
Proof.
  induction fuel as [|fuel IH]; intros next c; [discriminate|].
  simpl. destruct (deref (operands H) next) as [o|]; [|discriminate].
  simpl. destruct (Z.eqb_spec (NextUse o) 0) as [E|Hne].
  - intros [= <-]. left. exact E.
  - destruct (deref (operands H) (NextUse o)) as [o'|] eqn:Ho';
      [|discriminate].
    simpl.
    destruct (SILValue.getResultNumber (TheValue o') =? rn) eqn:Em.
    + intros [= <-]. right. split; [eauto|].
      rewrite (targets_result_live H rn _ o' Ho'). exact Em.
    + apply IH.
Qed.

(** X10: when the live operands sit at aligned addresses, a filtered
    iterator never rests on an operand of another result: the cursor the
    constructor leaves, and the cursor every increment leaves, is null or
    an operand whose target has the iterator's result number, and the
    increment keeps that number. *)
Theorem ValueUseIterator_cursor_matches_filter (H : Store) (rn : Z) :
  (forall p, is_Some (operands H !! p) -> ptr_ok p) -> 0 <= rn < 2 ->
  (forall cur it,
     ValueUseIterator.ctor H cur rn = Some it ->
     PointerIntPair.getInt it = rn
     /\ SILValue.handle_ok (SILValue.Build it)
     /\ (ValueUseIterator.deref_it it = 0
         \/ targets_result H rn (ValueUseIterator.deref_it it) = true))
  /\ (forall it it',
        SILValue.handle_ok (SILValue.Build it) ->
        PointerIntPair.getInt it = rn ->
        ValueUseIterator.incr H it = Some it' ->
        PointerIntPair.getInt it' = rn
        /\ SILValue.handle_ok (SILValue.Build it')
        /\ (ValueUseIterator.deref_it it' = 0
            \/ targets_result H rn (ValueUseIterator.deref_it it') = true)).
Proof.
  intros Hal Hrn.
  assert (Hpack : forall c,
            c = 0 \/ (is_Some (deref (operands H) c)
                      /\ targets_result H rn c = true) ->
            ptr_ok c
            /\ PointerIntPair.getInt (c + 2 * rn) = rn
            /\ SILValue.handle_ok (SILValue.Build (c + 2 * rn))
            /\ (ValueUseIterator.deref_it (c + 2 * rn) = 0
                \/ targets_result H rn
                     (ValueUseIterator.deref_it (c + 2 * rn)) = true)).
  { intros c Hc.
    assert (Hok : ptr_ok c).
    { destruct Hc as [->|[[o Ho] _]]; [apply ptr_ok_0|].
      apply Hal. apply deref_Some in Ho as [_ Ho]. eauto. }
    split; [exact Hok|].
    split; [apply getInt_packed; assumption|].
    unfold ValueUseIterator.deref_it.
    rewrite getPointer_packed by assumption.
    split.
    - destruct Hok as [Hr Ha]. unfold SILValue.handle_ok. simpl.
      unfold uintptr_bits in *. revert Ha. Z.div_mod_to_equations. lia.
    - destruct Hc as [->|[_ Ht]]; auto. }
  split.
  - intros cur it. unfold ValueUseIterator.ctor.
    destruct (ValueUseIterator.skip (walk_fuel H) H cur rn) as [c|] eqn:Es;
      [|discriminate].
    simpl. intros [= <-].
    destruct (Hpack c (skip_result _ _ _ _ _ Es)) as (Hok & Hp).
    rewrite setPointerAndInt_add by assumption. exact Hp.
  - intros it it' [Hr He] Hi. simpl in Hr, He.
    unfold ValueUseIterator.incr.
    destruct (PointerIntPair.getPointer it =? 0); [discriminate|].
    destruct (ValueUseIterator.advance (walk_fuel H) H
                (PointerIntPair.getPointer it) (PointerIntPair.getInt it))
      as [c|] eqn:Ea; [|discriminate].
    simpl. intros [= <-]. rewrite Hi in Ea.
    destruct (Hpack c (advance_result _ _ _ _ _ Ea)) as (Hok & Hp).
    assert (Hnext : ptr_ok (PointerIntPair.getPointer it)).
    { rewrite getPointer_div by exact Hr. unfold ptr_ok, uintptr_bits in *.
      Z.div_mod_to_equations. lia. }
    assert (Hw : it = PointerIntPair.getPointer it + 2 * rn).
    { rewrite <- Hi. rewrite getPointer_div, getInt_div by exact Hr.
      revert He. Z.div_mod_to_equations. lia. }
    rewrite Hw at 1 2 3 4. rewrite setPointer_add by assumption. exact Hp.
Qed.

Lemma ValueUseIterator_cursor_matches_filter_witness :
  exists it,
    ValueUseIterator.ctor store_B 8256 1 = Some it
    /\ ValueUseIterator.deref_it it = 8224
    /\ targets_result store_B 1 (ValueUseIterator.deref_it it) = true.
Proof.
  assert (Hal : forall p, is_Some (operands store_B !! p) -> ptr_ok p).
  { intros p Hp.
    assert (Hin : p ∈ [8224; 8256; 8192]).
    { apply elem_of_dom in Hp. apply elem_of_elements in Hp.
      vm_compute in Hp. exact Hp. }
    rewrite !elem_of_cons in Hin.
    destruct Hin as [->|[->|[->|Hn]]];
      try (unfold ptr_ok, uintptr_bits; split; [lia | reflexivity]).
    apply elem_of_nil in Hn. contradiction. }
  assert (Hc : exists it, ValueUseIterator.ctor store_B 8256 1 = Some it)
    by (eexists; vm_compute; reflexivity).
  destruct Hc as [it Hc]. exists it. split; [exact Hc|].
  destruct (proj1 (ValueUseIterator_cursor_matches_filter store_B 1 Hal
                     ltac:(lia)) 8256 it Hc) as (_ & _ & Hm).
  assert (Hd : ValueUseIterator.deref_it it = 8224).
  { vm_compute in Hc. injection Hc as <-. reflexivity. }
  split; [exact Hd|].
  destruct Hm as [Hz|Hm]; [rewrite Hd in Hz; discriminate | exact Hm].
Defined.

(** ** The two results share one use list *)

Lemma use_empty_chain (H : Store) (h : SILValue.t) (vb : ValueBase)
    (us : list Z) :
  deref (values H) (SILValue.getDef h) = Some vb ->
  chain (operands H) (FirstUse vb) us = true ->
  Forall ptr_ok us ->
  SILValueUses.use_empty H h
  = Some (forallb
            (fun p => negb (targets_result H (SILValue.getResultNumber h) p))
            us)
  /\ ValueBase.use_empty H (SILValue.getDef h)
     = Some (match us with [] => true | _ :: _ => false end).
Proof.
  intros Hv Hul Hok.
  assert (Hlen : (length us < walk_fuel H)%nat).
  { unfold walk_fuel. pose proof (chain_length _ _ _ Hul). lia. }
  assert (Hnz : Forall (fun a => a <> 0) us).
  { eapply Forall_impl; [exact (chain_live _ _ _ Hul)|].
    intros a [o Ho]. apply deref_Some in Ho as [Hne _]. exact Hne. }
  split.
  - unfold SILValueUses.use_empty, SILValueUses.use_begin. rewrite Hv. cbn.
    unfold ValueUseIterator.ctor.
    rewrite (skip_chain H _ us (FirstUse vb) (walk_fuel H) Hul Hlen). cbn.
    rewrite use_end_null. cbn. unfold ValueUseIterator.eqb.
    rewrite setPointerAndInt_add
      by (apply hd_filter_ptr_ok, Hok || apply getInt_range).
    rewrite getPointer_packed
      by (apply hd_filter_ptr_ok, Hok || apply getInt_range).
    rewrite getPointer_0. f_equal. apply hd_filter_null. exact Hnz.
  - unfold ValueBase.use_empty. rewrite Hv. cbn. f_equal.
    destruct us as [|a t].
    + apply chain_nil in Hul. rewrite Hul. reflexivity.
    + apply chain_cons in Hul as (-> & o & Ho & _).
      apply deref_Some in Ho as [Hne _]. apply Z.eqb_neq. exact Hne.
Qed.

Lemma filter_nil_forallb (f : Z -> bool) (us : list Z) :
  List.filter f us = [] <-> forallb (fun p => negb (f p)) us = true.
Proof.
  induction us as [|a t IH]; simpl; [tauto|].
  destruct (f a); simpl; [split; discriminate | exact IH].
Qed.

(** X11: on a value whose use list is a sound chain, each emptiness query
    agrees with its enumeration: [SILValue::use_empty] is true exactly
    when the filtered enumeration is empty, and [ValueBase::use_empty]
    exactly when the whole enumeration is. *)
Theorem use_empty_agrees_with_getUses
    (H : Store) (h : SILValue.t) (us : list Z) :
  use_list H (SILValue.getDef h) us = true -> Forall ptr_ok us ->
  (exists b l,
     SILValueUses.use_empty H h = Some b
     /\ SILValueUses.getUses H h = Some l
     /\ (b = true <-> l = []))
  /\ (exists b l,
        ValueBase.use_empty H (SILValue.getDef h) = Some b
        /\ ValueBase.getUses H (SILValue.getDef h) = Some l
        /\ (b = true <-> l = [])).
Proof.
  unfold use_list. intros Hul Hok.
  destruct (deref (values H) (SILValue.getDef h)) as [vb|] eqn:Hv;
    [|discriminate].
  destruct (use_empty_chain H h vb us Hv Hul Hok) as [Hse Hve].
  destruct (getUses_chain H h vb us Hv Hul Hok) as [Hu Hf].
  split.
  - eexists. eexists. split; [exact Hse|]. split; [exact Hf|].
    symmetry. apply filter_nil_forallb.
  - eexists. eexists. split; [exact Hve|]. split; [exact Hu|].
    destruct us; split; congruence.
Qed.

Lemma use_empty_agrees_with_getUses_witness :
  SILValueUses.use_empty store_R1 V_0 = Some true
  /\ SILValueUses.getUses store_R1 V_0 = Some [].
Proof.
  assert (Hok : Forall ptr_ok [8224]).
  { repeat constructor. unfold uintptr_bits. lia. }
  destruct (use_empty_agrees_with_getUses store_R1 V_0 [8224] eq_refl Hok)
    as [(b & l & Hb & Hl & Hiff) _].
  assert (El : l = []).
  { vm_compute in Hl. injection Hl as <-. reflexivity. }
  subst l. split; [|exact Hl].
  rewrite Hb. f_equal. apply Hiff. reflexivity.
Defined.

Lemma targets_result_split (H : Store) (p : Z) :
  is_Some (deref (operands H) p) ->
  targets_result H 1 p = negb (targets_result H 0 p).
Proof.
  intros [o Ho]. rewrite !(targets_result_live H _ p o Ho).
  pose proof (getInt_range (SILValue.ValueAndResultNumber (TheValue o))) as Hr.
  unfold SILValue.getResultNumber.
  destruct (Z.eqb_spec
              (PointerIntPair.getInt
                 (SILValue.ValueAndResultNumber (TheValue o))) 0) as [E|E];
    simpl; [rewrite E; reflexivity | apply Z.eqb_eq; lia].
Qed.

(** X12: on a value whose use list is a sound chain, the enumerations of
    the uses of result 0 and of result 1 split the enumeration of all
    uses between them: every use is in exactly one of the two, and their
    lengths add up. *)
Theorem uses_split_by_result
    (H : Store) (h0 h1 : SILValue.t) (us : list Z) :
  SILValue.getDef h0 = SILValue.getDef h1 ->
  SILValue.getResultNumber h0 = 0 -> SILValue.getResultNumber h1 = 1 ->
  use_list H (SILValue.getDef h0) us = true -> Forall ptr_ok us ->
  exists u0 u1,
    ValueBase.getUses H (SILValue.getDef h0) = Some us
    /\ SILValueUses.getUses H h0 = Some u0
    /\ SILValueUses.getUses H h1 = Some u1
    /\ (forall p, p ∈ us <-> p ∈ u0 \/ p ∈ u1)
    /\ (forall p, p ∈ u0 -> p ∉ u1)
    /\ (length u0 + length u1 = length us)%nat.
Proof.
  unfold use_list. intros Hd H0 H1 Hul Hok.
  destruct (deref (values H) (SILValue.getDef h0)) as [vb|] eqn:Hv;
    [|discriminate].
  destruct (getUses_chain H h0 vb us Hv Hul Hok) as [Hu Hf0].
  assert (Hv1 : deref (values H) (SILValue.getDef h1) = Some vb)
    by (rewrite <- Hd; exact Hv).
  destruct (getUses_chain H h1 vb us Hv1 Hul Hok) as [_ Hf1].
  rewrite H0 in Hf0. rewrite H1 in Hf1.
  pose proof (chain_live _ _ _ Hul) as Hlive.
  exists (List.filter (targets_result H 0) us),
         (List.filter (targets_result H 1) us).
  split; [exact Hu|]. split; [exact Hf0|]. split; [exact Hf1|].
  clear Hu Hf0 Hf1 Hul Hok.
  split; [|split].
  - intros p. rewrite !list_elem_of_In, !filter_In. split.
    + intros Hp. assert (Hl : is_Some (deref (operands H) p)).
      { rewrite Forall_forall in Hlive. apply Hlive, list_elem_of_In, Hp. }
      rewrite (targets_result_split H p Hl).
      destruct (targets_result H 0 p); auto.
    + intros [[Hp _]|[Hp _]]; exact Hp.
  - intros p. rewrite !list_elem_of_In, !filter_In.
    intros [Hp Ht] [_ Ht1].
    assert (Hl : is_Some (deref (operands H) p)).
    { rewrite Forall_forall in Hlive. apply Hlive, list_elem_of_In, Hp. }
    rewrite (targets_result_split H p Hl), Ht in Ht1. discriminate.
  - induction Hlive as [|a t Ha Ht IH]; [reflexivity|].
    simpl. rewrite (targets_result_split H a Ha).
    destruct (targets_result H 0 a); simpl; lia.
Qed.

Lemma uses_split_by_result_witness :
  exists u0 u1,
    SILValueUses.getUses store_B V_0 = Some u0
    /\ SILValueUses.getUses store_B V_1 = Some u1
    /\ (length u0 + length u1 = 3)%nat.
Proof.
  assert (Hok : Forall ptr_ok [8256; 8224; 8192]).
  { repeat constructor; unfold uintptr_bits; lia. }
  destruct (uses_split_by_result store_B V_0 V_1 [8256; 8224; 8192]
              eq_refl eq_refl eq_refl eq_refl Hok)
    as (u0 & u1 & _ & Hu0 & Hu1 & _ & _ & Hlen).
  exists u0, u1. split; [exact Hu0|]. split; [exact Hu1 | exact Hlen].
Defined.

(** ** What unlinking does *)

Lemma store_NextUse_dom (p n : Z) (H H' : Store) :
  store_NextUse p n H = Some H' ->
  dom (operands H') = dom (operands H).
Proof.
  unfold store_NextUse. destruct (deref (operands H) p) as [o|] eqn:Ho;
    [|discriminate].
  simpl. intros [= <-]. simpl. apply deref_Some in Ho as [_ Ho].
  apply dom_insert_lookup_L. eauto.
Qed.

Lemma store_Back_dom (p : Z) (b : option UseSlot) (H H' : Store) :
  store_Back p b H = Some H' ->
  dom (operands H') = dom (operands H).
Proof.
  unfold store_Back. destruct (deref (operands H) p) as [o|] eqn:Ho;
    [|discriminate].
  simpl. intros [= <-]. simpl. apply deref_Some in Ho as [_ Ho].
  apply dom_insert_lookup_L. eauto.
Qed.

Lemma removeFromCurrent_dom (this : Z) (H H' : Store) :
  Operand.removeFromCurrent this H = Some H' ->
  dom (operands H') = dom (operands H).
Proof.
  unfold Operand.removeFromCurrent.
  destruct (deref (operands H) this) as [o|]; [|discriminate]. simpl.
  destruct (Back o) as [b|]; [|intros [= <-]; reflexivity].
  destruct (load_slot H b) as [p|]; [|discriminate]. simpl.
  destruct (store_NextUse p (NextUse o) H) as [H1|] eqn:E1; [|discriminate].
  simpl. apply store_NextUse_dom in E1.
  destruct (deref (operands H1) this) as [o1|]; [|discriminate]. simpl.
  destruct (NextUse o1 =? 0); [intros [= <-]; exact E1|].
  intros E2. apply store_Back_dom in E2. congruence.
Qed.

(** X13: on a store with sound links [removeFromCurrent] runs to its end
    and rewrites one member at most, the [Back] of the operand's
    successor, which takes over the operand's own [Back]; every
    [FirstUse] and [NextUse], every handle, every user and every other
    [Back] stay as they were, so every use list still enumerates the
    operand. *)
Theorem removeFromCurrent_rewrites_successor_back
    (this : Z) (H : Store) (o : OperandRec) :
  well_linked H -> deref (operands H) this = Some o ->
  exists H1,
    Operand.removeFromCurrent this H = Some H1
    /\ (forall s, load_slot H1 s = load_slot H s)
    /\ (forall q, Operand.get H1 q = Operand.get H q
                  /\ Operand.getUser H1 q = Operand.getUser H q)
    /\ (forall V, ValueBase.getUses H1 V = ValueBase.getUses H V)
    /\ (forall q, q <> NextUse o ->
          Back <$> deref (operands H1) q = Back <$> deref (operands H) q)
    /\ (Back o <> None -> NextUse o <> 0 ->
        Back <$> deref (operands H1) (NextUse o) = Some (Back o)).
Proof.
  intros Hwl Ho.
  assert (Hgoal : exists H1,
    Operand.removeFromCurrent this H = Some H1
    /\ (forall s, load_slot H1 s = load_slot H s)
    /\ (forall q, deref (operands H1) q = None <-> deref (operands H) q = None)
    /\ (forall q, q <> NextUse o ->
          Back <$> deref (operands H1) q = Back <$> deref (operands H) q)
    /\ (Back o <> None -> NextUse o <> 0 ->
        Back <$> deref (operands H1) (NextUse o) = Some (Back o))).
  { destruct Hwl as (_ & _ & Hops).
    unfold Operand.removeFromCurrent. rewrite Ho. simpl.
    pose proof Ho as Hl. apply deref_Some in Hl as [Hthis Hl].
    apply Hops in Hl. unfold operand_linked in Hl.
    apply andb_true_iff in Hl as [Hnext Hback].
    destruct (Back o) as [b|] eqn:Eb.
    2:{ exists H. repeat split; auto. intros Hc. congruence. }
    apply bool_decide_eq_true in Hback. rewrite Hback. simpl.
    destruct (store_NextUse this (NextUse o) H) as [H1|] eqn:E1.
    2:{ unfold store_NextUse in E1. rewrite Ho in E1. discriminate. }
    simpl.
    pose proof E1 as E1'.
    apply store_NextUse_inv in E1' as (Hv1 & Ht1 & _ & Hb1 & Hoth1 & Hn1).
    assert (Hsame1 : forall q, NextUse <$> deref (operands H1) q
                               = NextUse <$> deref (operands H) q).
    { intros q. destruct (decide (q = this)) as [->|Hq].
      - rewrite Hn1, Ho. reflexivity.
      - rewrite (Hoth1 q Hq). reflexivity. }
    assert (Hslot1 : forall s, load_slot H1 s = load_slot H s).
    { intros [V|r]; simpl; [rewrite Hv1; reflexivity | apply Hsame1]. }
    assert (Hnone1 : forall q, deref (operands H1) q = None
                               <-> deref (operands H) q = None).
    { intros q. specialize (Ht1 q).
      destruct (deref (operands H1) q), (deref (operands H) q);
        simpl in Ht1; try discriminate; split; auto; discriminate. }
    destruct (deref (operands H1) this) as [o1|] eqn:Ho1.
    2:{ apply Hnone1 in Ho1. congruence. }
    simpl.
    assert (En : NextUse o1 = NextUse o).
    { specialize (Hsame1 this). rewrite Ho1, Ho in Hsame1.
      simpl in Hsame1. congruence. }
    assert (Ebk : Back o1 = Some b).
    { specialize (Hb1 this). rewrite Ho1, Ho in Hb1.
      simpl in Hb1. congruence. }
    rewrite En, Ebk.
    destruct (Z.eqb_spec (NextUse o) 0) as [E0|Hnz].
    { exists H1. split; [reflexivity|]. split; [exact Hslot1|].
      split; [exact Hnone1|]. split; [intros q _; apply Hb1|].
      intros _ Hc. congruence. }
    apply orb_true_iff in Hnext as [Hz|Hlive]; [discriminate|].
    apply bool_decide_eq_true in Hlive.
    destruct (store_Back (NextUse o) (Some b) H1) as [H2|] eqn:E2.
    2:{ unfold store_Back in E2.
        destruct (deref (operands H1) (NextUse o)) eqn:Ed; [discriminate|].
        apply Hnone1 in Ed. destruct Hlive as [x Hx]. congruence. }
    pose proof E2 as E2'.
    apply store_Back_inv in E2' as (Hv2 & Ht2 & _ & Hn2 & Hoth2 & Hb2).
    exists H2. split; [reflexivity|].
    split; [|split; [|split]].
    - intros [V|r]; simpl.
      + rewrite Hv2, Hv1. reflexivity.
      + rewrite Hn2. apply Hsame1.
    - intros q. rewrite <- Hnone1. specialize (Ht2 q).
      destruct (deref (operands H2) q), (deref (operands H1) q);
        simpl in Ht2; try discriminate; split; auto; discriminate.
    - intros q Hq. rewrite (Hoth2 q Hq). apply Hb1.
    - intros _ _. exact Hb2. }
  destruct Hgoal as (H1 & Hrm & Hslot & Hnone & Hbk & Hsucc).
  exists H1. split; [exact Hrm|]. split; [exact Hslot|].
  pose proof (removeFromCurrent_inv _ _ _ Hrm) as (Hv & Ht & Hown).
  split; [intros q; unfold Operand.get, Operand.getUser; auto|].
  split; [|split; assumption].
  intros V.
  assert (Hsz : walk_fuel H1 = walk_fuel H).
  { unfold walk_fuel. f_equal.
    rewrite <- !(size_dom (D := gset Z)).
    rewrite (removeFromCurrent_dom _ _ _ Hrm). reflexivity. }
  unfold ValueBase.getUses, ValueBase.use_begin. rewrite Hv, Hsz.
  destruct (FirstUse <$> deref (values H) V) as [f|]; [|reflexivity].
  cbn. generalize (walk_fuel H). intros fuel. revert f.
  induction fuel as [|fuel IH]; intros f; [reflexivity|].
  simpl. destruct (ValueBaseUseIterator.eqb f ValueBase.use_end);
    [reflexivity|].
  unfold ValueBaseUseIterator.incr.
  change (NextUse <$> deref (operands H1) f) with (load_slot H1 (NextUseOf f)).
  change (NextUse <$> deref (operands H) f) with (load_slot H (NextUseOf f)).
  rewrite Hslot. destruct (load_slot H (NextUseOf f)) as [f'|]; [|reflexivity].
  simpl. rewrite IH. reflexivity.
Qed.

Lemma removeFromCurrent_rewrites_successor_back_witness :
  exists H1,
    Operand.removeFromCurrent 8224 store_B = Some H1
    /\ ValueBase.getUses H1 4096 = ValueBase.getUses store_B 4096
    /\ Back <$> deref (operands H1) 8192 = Some (Some (NextUseOf 8256)).
Proof.
  destruct (removeFromCurrent_rewrites_successor_back 8224 store_B
              (mkOperand V_1 8192 (Some (NextUseOf 8256)) 512))
    as (H1 & Hrm & _ & _ & Hu & _ & Hb).
  - unfold well_linked. refine (bool_decide_unpack _ _). vm_compute. exact I.
  - reflexivity.
  - exists H1. split; [exact Hrm|]. split; [apply Hu|].
    apply Hb; simpl; [discriminate | lia].
Defined.

(** ** Runs of constructions read back *)

Lemma construct_all_app (l1 l2 : list NewOperand) (H : Store) :
  construct_all (l1 ++ l2) H
  = (H1 ← construct_all l1 H; construct_all l2 H1).
Proof.
  revert H. induction l1 as [|e l1 IH]; intros H; [reflexivity|].
  simpl. destruct (Operand.ctor (new_addr e) (new_owner e) (new_value e) H);
    simpl; [apply IH | reflexivity].
Qed.

(** What a construction needs of the store it runs on. *)
Lemma construct_all_readback (l : list NewOperand) :
  forall H : Store,
    well_linked H -> NoDup (new_addr <$> l) ->
    Forall (fun e => new_addr e <> 0
                     /\ operands H !! new_addr e = None
                     /\ is_Some (deref (values H)
                                   (SILValue.getDef (new_value e)))) l ->
    exists H',
      construct_all l H = Some H'
      /\ well_linked H'
      /\ Forall (fun e => Operand.get H' (new_addr e) = Some (new_value e)
                          /\ Operand.getUser H' (new_addr e)
                             = Some (new_owner e)) l
      /\ (forall q, q ∉ new_addr <$> l ->
            Operand.get H' q = Operand.get H q
            /\ Operand.getUser H' q = Operand.getUser H q
            /\ (operands H !! q = None -> operands H' !! q = None))
      /\ (forall W, is_Some (deref (values H') W)
                    <-> is_Some (deref (values H) W)).
Proof.
  induction l as [|e l' IH]; intros H Hwl Hnd Hok.
  - exists H. split; [reflexivity|]. split; [exact Hwl|].
    split; [constructor|]. split; [auto|]. intros W. reflexivity.
  - apply Forall_cons in Hok as [(Hne & Hfresh & Hlive) Hok'].
    simpl in Hnd. apply NoDup_cons in Hnd as [Hnotin Hnd'].
    destruct (well_linked_link_ready H _ Hwl Hlive) as (vb & Hvb & Hhead).
    destruct (ctor_links_at_head (new_addr e) (new_owner e) (new_value e)
                H vb Hne Hfresh Hvb Hhead)
      as (H1 & Hc & Hg & Hu & Hb & _).
    destruct (ctor_well_linked (new_addr e) (new_owner e) (new_value e) H
                Hwl Hne Hfresh Hlive) as (H1' & Hc' & Hwl1).
    rewrite Hc in Hc'. injection Hc' as <-.
    destruct (ctor_frame (new_addr e) (new_owner e) (new_value e) H H1 vb
                Hne Hfresh Hvb Hhead Hc) as (Hfr & Hsame & Hvals).
    assert (Hlive1 : forall W, is_Some (deref (values H1) W)
                               <-> is_Some (deref (values H) W)).
    { intros W.
      destruct (decide (W = SILValue.getDef (new_value e))) as [->|HW].
      - split; intros _; [eauto|].
        unfold ValueBase.use_begin in Hb.
        destruct (deref (values H1) (SILValue.getDef (new_value e)));
          [eauto | discriminate].
      - rewrite (Hvals W HW). reflexivity. }
    assert (Hfresh1 : forall q, q <> new_addr e ->
              operands H !! q = None -> operands H1 !! q = None).
    { intros q Hq Hn. destruct (decide (q = 0)) as [->|Hq0].
      - destruct Hwl1 as (Hz & _). exact Hz.
      - assert (Hqf : q <> FirstUse vb).
        { intros ->. destruct Hhead as [Hz|[x Hx]]; [congruence|].
          apply deref_Some in Hx as [_ Hx]. congruence. }
        specialize (Hsame q Hq Hqf). unfold deref in Hsame.
        destruct (decide (q = 0)); [contradiction|]. congruence. }
    destruct (IH H1 Hwl1 Hnd') as (H' & Hrun & Hwl' & Hrb & Hoth & Hlive').
    { apply Forall_forall. rewrite Forall_forall in Hok'. intros x Hx.
      destruct (Hok' x Hx) as (Hx0 & Hxf & Hxl).
      split; [exact Hx0|]. split.
      - apply Hfresh1; [|exact Hxf].
        intros Heq. apply Hnotin. rewrite <- Heq.
        apply list_elem_of_fmap. exists x. auto.
      - apply Hlive1. exact Hxl. }
    exists H'. simpl. rewrite Hc. simpl.
    split; [exact Hrun|]. split; [exact Hwl'|].
    split; [|split].
    + constructor; [|exact Hrb].
      destruct (Hoth (new_addr e) Hnotin) as (Hg' & Hu' & _).
      rewrite Hg', Hu'. auto.
    + intros q Hq. simpl in Hq. apply not_elem_of_cons in Hq as [Hqe Hq].
      destruct (Hoth q Hq) as (Hg' & Hu' & Hf').
      destruct (Hfr q Hqe) as (Hg1 & Hu1 & _).
      split; [congruence|]. split; [congruence|].
      intros Hn. apply Hf'. apply Hfresh1; assumption.
    + intros W. rewrite Hlive'. apply Hlive1.
Qed.

(** ** Consecutive slots *)

Lemma slots_addr_ge (sz p user : Z) (args : list SILValue.t) :
  0 < sz -> Forall (fun e => p <= new_addr e) (slots sz p user args).
Proof.
  intros Hsz. revert p. induction args as [|v r IH]; intros p; simpl;
    constructor; [simpl; lia|].
  eapply Forall_impl; [apply IH|]. simpl. intros e He. lia.
Qed.

Lemma slots_NoDup (sz p user : Z) (args : list SILValue.t) :
  0 < sz -> NoDup (new_addr <$> slots sz p user args).
Proof.
  intros Hsz. revert p. induction args as [|v r IH]; intros p; simpl;
    [apply NoDup_nil_2|].
  apply NoDup_cons. split; [|apply IH].
  intros Hin. apply list_elem_of_fmap in Hin as (e & He & Hin).
  pose proof (slots_addr_ge sz (p + sz) user r Hsz) as Hge.
  rewrite Forall_forall in Hge. specialize (Hge e Hin). lia.
Qed.

Lemma slots_app (sz p user : Z) (a b : list SILValue.t) :
  slots sz p user (a ++ b)
  = slots sz p user a ++ slots sz (p + sz * Z.of_nat (length a)) user b.
Proof.
  revert p. induction a as [|v r IH]; intros p; simpl.
  - f_equal. lia.
  - f_equal. rewrite IH. f_equal. f_equal. lia.
Qed.

Lemma slots_Forall (sz p user : Z) (args : list SILValue.t)
    (P : NewOperand -> Prop) :
  (forall (i : nat) v, args !! i = Some v ->
     P (mkNew (p + sz * Z.of_nat i) user v)) ->
  Forall P (slots sz p user args).
Proof.
  revert p. induction args as [|v r IH]; intros p HP; simpl; constructor.
  - specialize (HP O v eq_refl).
    replace (p + sz * Z.of_nat 0) with p in HP by lia. exact HP.
  - apply IH. intros i w Hi. specialize (HP (S i) w Hi).
    replace (p + sz + sz * Z.of_nat i) with (p + sz * Z.of_nat (S i)) by lia.
    exact HP.
Qed.

Lemma slots_lookup (sz p user : Z) (args : list SILValue.t)
    (P : NewOperand -> Prop) :
  Forall P (slots sz p user args) ->
  forall (i : nat) v, args !! i = Some v ->
    P (mkNew (p + sz * Z.of_nat i) user v).
Proof.
  revert p. induction args as [|v r IH]; intros p HP i w Hi;
    [discriminate|].
  simpl in HP. apply Forall_cons in HP as [Hh Ht].
  destruct i as [|i].
  - injection Hi as <-. replace (p + sz * Z.of_nat 0) with p by lia.
    exact Hh.
  - replace (p + sz * Z.of_nat (S i)) with (p + sz + sz * Z.of_nat i) by lia.
    apply (IH _ Ht). exact Hi.
Qed.

(** ** Walking an operand array *)

Lemma ovar_range_reads (sz : Z) (H : Store) (fuel : nat) :
  0 < sz ->
  forall (p : Z) (n : nat) (vs : list SILValue.t),
    OperandValueArrayRef.range sz fuel H p (p + sz * Z.of_nat n) = Some vs ->
    length vs = n
    /\ forall i : nat, (i < n)%nat ->
         Operand.get H (p + sz * Z.of_nat i) = vs !! i.
Proof.
  intros Hsz. induction fuel as [|fuel IH]; intros p n vs; [discriminate|].
  simpl. unfold OperandValueArrayRef.it_eqb, OperandValueArrayRef.it_deref,
    OperandValueArrayRef.it_incr.
  destruct (Z.eqb_spec p (p + sz * Z.of_nat n)) as [E|Hne].
  - intros [= <-]. assert (n = O) by nia. subst n.
    split; [reflexivity|]. intros i Hi. lia.
  - destruct n as [|n]; [exfalso; apply Hne; lia|].
    destruct (Operand.get H p) as [v|] eqn:Hg; [|discriminate]. simpl.
    replace (p + sz * Z.of_nat (S n)) with (p + sz + sz * Z.of_nat n) by lia.
    destruct (OperandValueArrayRef.range sz fuel H (p + sz)
                (p + sz + sz * Z.of_nat n)) as [rest|] eqn:Er;
      [|discriminate].
    simpl. intros [= <-].
    destruct (IH _ _ _ Er) as [Hlen Hrd].
    split; [simpl; congruence|].
    intros [|i] Hi.
    + replace (p + sz * Z.of_nat 0) with p by lia. exact Hg.
    + replace (p + sz * Z.of_nat (S i)) with (p + sz + sz * Z.of_nat i)
        by lia.
      simpl. apply Hrd. lia.
Qed.

Lemma ovar_range_total (sz : Z) (H : Store) :
  0 < sz ->
  forall (vs : list SILValue.t) (p : Z) (fuel : nat),
    (forall (i : nat) v, vs !! i = Some v ->
       Operand.get H (p + sz * Z.of_nat i) = Some v) ->
    (length vs < fuel)%nat ->
    OperandValueArrayRef.range sz fuel H p (p + sz * Z.of_nat (length vs))
    = Some vs.
Proof.
  intros Hsz. induction vs as [|v r IH]; intros p fuel Hrd Hf;
    (destruct fuel as [|fuel]; [simpl in Hf; lia|]).
  - simpl length. change (Z.of_nat 0) with 0.
    rewrite Z.mul_0_r, Z.add_0_r. simpl.
    unfold OperandValueArrayRef.it_eqb. rewrite Z.eqb_refl. reflexivity.
  - assert (Hend : p + sz * Z.of_nat (length (v :: r))
                   = p + sz + sz * Z.of_nat (length r))
      by (simpl length; lia).
    rewrite Hend. cbn [OperandValueArrayRef.range].
    unfold OperandValueArrayRef.it_eqb, OperandValueArrayRef.it_deref,
      OperandValueArrayRef.it_incr.
    destruct (Z.eqb_spec p (p + sz + sz * Z.of_nat (length r))) as [E|_];
      [nia|].
    pose proof (Hrd O v eq_refl) as Hg.
    replace (p + sz * Z.of_nat 0) with p in Hg by lia. rewrite Hg.
    cbn [mbind option_bind].
    rewrite IH; [reflexivity | | simpl in Hf; lia].
    intros i w Hi. specialize (Hrd (S i) w Hi).
    replace (p + sz + sz * Z.of_nat i) with (p + sz * Z.of_nat (S i)) by lia.
    exact Hrd.
Qed.

Lemma ovar_range_live (sz : Z) (H : Store) :
  0 < sz ->
  forall (n : nat) (p : Z) (fuel : nat),
    (forall i : nat, (i < n)%nat ->
       is_Some (Operand.get H (p + sz * Z.of_nat i))) ->
    (n < fuel)%nat ->
    is_Some (OperandValueArrayRef.range sz fuel H p (p + sz * Z.of_nat n)).
Proof.
  intros Hsz. induction n as [|n IH]; intros p fuel Hl Hf;
    (destruct fuel as [|fuel]; [lia|]).
  - change (Z.of_nat 0) with 0. rewrite Z.mul_0_r, Z.add_0_r. simpl.
    unfold OperandValueArrayRef.it_eqb. rewrite Z.eqb_refl. eauto.
  - assert (Hend : p + sz * Z.of_nat (S n) = p + sz + sz * Z.of_nat n) by lia.
    rewrite Hend. cbn [OperandValueArrayRef.range].
    unfold OperandValueArrayRef.it_eqb, OperandValueArrayRef.it_deref,
      OperandValueArrayRef.it_incr.
    destruct (Z.eqb_spec p (p + sz + sz * Z.of_nat n)) as [E|_]; [nia|].
    destruct (Hl O) as [v Hv]; [lia|].
    replace (p + sz * Z.of_nat 0) with p in Hv by lia. rewrite Hv.
    cbn [mbind option_bind].
    destruct (IH (p + sz) fuel) as [rest Hrest]; [|lia|].
    + intros i Hi. specialize (Hl (S i)).
      replace (p + sz + sz * Z.of_nat i) with (p + sz * Z.of_nat (S i))
        by lia.
      apply Hl. lia.
    + rewrite Hrest. simpl. eauto.
Qed.

(** X14: for an array of [Length] operands the loop from [begin()] to
    [end()] and the indexed reads agree: the loop runs to its end exactly
    when every element is a live operand, it visits [Length] handles, the
    [i]-th of them is what [operator[]] returns at [i], and on a
    non-empty array [front()] and [back()] are the first and the last of
    them. *)
Theorem OperandValueArrayRef_loop_agrees_with_index
    (sizeof_Operand : Z) (H : Store) (a : ArrayRef.t) :
  0 < sizeof_Operand -> 0 <= ArrayRef.Length a ->
  ((forall i, 0 <= i < ArrayRef.Length a ->
      is_Some (OperandValueArrayRef.index sizeof_Operand H a i))
   <-> is_Some (OperandValueArrayRef.elements sizeof_Operand H a))
  /\ (forall vs,
        OperandValueArrayRef.elements sizeof_Operand H a = Some vs ->
        Z.of_nat (length vs) = OperandValueArrayRef.size a
        /\ (forall i, 0 <= i < ArrayRef.Length a ->
              OperandValueArrayRef.index sizeof_Operand H a i
              = vs !! Z.to_nat i)
        /\ (OperandValueArrayRef.empty a = false ->
            OperandValueArrayRef.front H a = head vs
            /\ OperandValueArrayRef.back sizeof_Operand H a = last vs)).
Proof.
  intros Hsz Hlen. destruct a as [p len]. simpl in Hlen.
  assert (Hn : len = Z.of_nat (Z.to_nat len)) by lia.
  set (n := Z.to_nat len) in *. clearbody n. subst len.
  set (a := ArrayRef.Build p (Z.of_nat n)).
  assert (Hidx : forall i, 0 <= i < Z.of_nat n ->
            OperandValueArrayRef.index sizeof_Operand H a i
            = Operand.get H (p + sizeof_Operand * Z.of_nat (Z.to_nat i))).
  { intros i Hi. unfold OperandValueArrayRef.index, ArrayRef.index, a.
    cbn [ArrayRef.Data ArrayRef.Length].
    destruct (Z.ltb_spec i (Z.of_nat n)) as [_|]; [|lia].
    cbn [mbind option_bind]. rewrite Z2Nat.id by lia. reflexivity. }
  assert (Hel : OperandValueArrayRef.elements sizeof_Operand H a
                = OperandValueArrayRef.range sizeof_Operand (S n) H p
                    (p + sizeof_Operand * Z.of_nat n)).
  { unfold OperandValueArrayRef.elements, a.
    cbn [ArrayRef.Length]. rewrite Nat2Z.id. reflexivity. }
  rewrite Hel.
  assert (Hreads : forall vs,
            OperandValueArrayRef.range sizeof_Operand (S n) H p
              (p + sizeof_Operand * Z.of_nat n) = Some vs ->
            length vs = n
            /\ forall i : nat, (i < n)%nat ->
                 Operand.get H (p + sizeof_Operand * Z.of_nat i) = vs !! i)
    by (intros vs; apply ovar_range_reads; exact Hsz).
  split; [split|].
  - intros Hall. apply ovar_range_live; [exact Hsz | | lia].
    intros i Hi. specialize (Hall (Z.of_nat i)).
    rewrite Hidx, Nat2Z.id in Hall by lia. apply Hall.
    unfold a. cbn [ArrayRef.Length]. lia.
  - intros [vs Hvs] i Hi. destruct (Hreads vs Hvs) as [Hl Hrd].
    unfold a in Hi. cbn [ArrayRef.Length] in Hi.
    rewrite Hidx by exact Hi. rewrite Hrd by lia.
    apply lookup_lt_is_Some. lia.
  - intros vs Hvs. destruct (Hreads vs Hvs) as [Hl Hrd].
    unfold OperandValueArrayRef.size, ArrayRef.size, a.
    cbn [ArrayRef.Length].
    split; [lia|]. split.
    + intros i Hi. fold a. rewrite Hidx by exact Hi. apply Hrd. lia.
    + unfold OperandValueArrayRef.empty, ArrayRef.empty,
        OperandValueArrayRef.front, OperandValueArrayRef.back,
        ArrayRef.front, ArrayRef.back, ArrayRef.empty.
      cbn [ArrayRef.Data ArrayRef.Length].
      destruct (Z.eqb_spec (Z.of_nat n) 0) as [|Hne]; [discriminate|].
      intros _. cbn [mbind option_bind]. split.
      * rewrite head_lookup, <- Hrd by lia.
        f_equal. lia.
      * rewrite last_lookup, Hl.
        destruct n as [|m]; [lia|]. cbn [Init.Nat.pred].
        rewrite <- Hrd by lia. f_equal. lia.
Qed.

Lemma OperandValueArrayRef_loop_agrees_with_index_witness :
  OperandValueArrayRef.elements 32 store_B (ArrayRef.Build 8192 3)
  = Some [V_0; V_1; V_0]
  /\ OperandValueArrayRef.index 32 store_B (ArrayRef.Build 8192 3) 1
     = Some V_1.
Proof.
  assert (He : OperandValueArrayRef.elements 32 store_B
                 (ArrayRef.Build 8192 3) = Some [V_0; V_1; V_0])
    by (vm_compute; reflexivity).
  split; [exact He|].
  destruct (proj2 (OperandValueArrayRef_loop_agrees_with_index 32 store_B
                     (ArrayRef.Build 8192 3) ltac:(lia) ltac:(simpl; lia))
              _ He) as (_ & Hidx & _).
  rewrite (Hidx 1) by (simpl; lia). reflexivity.
Defined.



(** ** Operand lists read back their initialisers *)

Lemma slots_addr_elem (sz p user : Z) (args : list SILValue.t) (q : Z) :
  q ∈ new_addr <$> slots sz p user args ->
  exists i : nat, (i < length args)%nat /\ q = p + sz * Z.of_nat i.
Proof.
  revert p. induction args as [|v r IH]; intros p Hq; simpl in Hq.
  - apply elem_of_nil in Hq. contradiction.
  - apply elem_of_cons in Hq as [->|Hq].
    + exists O. simpl. split; lia.
    + destruct (IH _ Hq) as (i & Hi & ->).
      exists (S i). simpl. split; lia.
Qed.

(** A run of constructions in consecutive fresh slots. *)
Lemma slots_construct (sz buf user : Z) (args : list SILValue.t) (H : Store) :
  0 < sz -> well_linked H -> 0 < buf ->
  (forall i : nat, (i < length args)%nat ->
     operands H !! (buf + sz * Z.of_nat i) = None) ->
  Forall (fun v => is_Some (deref (values H) (SILValue.getDef v))) args ->
  exists H',
    construct_all (slots sz buf user args) H = Some H'
    /\ well_linked H'
    /\ (forall (i : nat) v, args !! i = Some v ->
          Operand.get H' (buf + sz * Z.of_nat i) = Some v
          /\ Operand.getUser H' (buf + sz * Z.of_nat i) = Some user)
    /\ (forall q,
          (forall i : nat, (i < length args)%nat ->
             q <> buf + sz * Z.of_nat i) ->
          Operand.get H' q = Operand.get H q
          /\ Operand.getUser H' q = Operand.getUser H q).
Proof.
  intros Hsz Hwl Hbuf Hfresh Hlive.
  destruct (construct_all_readback (slots sz buf user args) H Hwl
              (slots_NoDup sz buf user args Hsz))
    as (H' & Hrun & Hwl' & Hrb & Hoth & _).
  { apply slots_Forall. intros i v Hi. simpl.
    pose proof (lookup_lt_Some _ _ _ Hi) as Hlt.
    split; [nia|]. split; [apply Hfresh; exact Hlt|].
    rewrite Forall_forall in Hlive. apply Hlive.
    apply list_elem_of_lookup. eauto. }
  exists H'. split; [exact Hrun|]. split; [exact Hwl'|]. split.
  - intros i v Hi.
    exact (slots_lookup sz buf user args _ Hrb i v Hi).
  - intros q Hq. destruct (Hoth q) as (Hg & Hu & _); [|auto].
    intros Hin. apply slots_addr_elem in Hin as (i & Hi & ->).
    exact (Hq i Hi eq_refl).
Qed.

(** X16: a fixed operand list constructed in fresh storage with [N] live
    targets runs to its end and keeps the links sound; its value array
    reads back the initialisers in order, each operand's user is the
    list's user, and no operand outside the list changes its handle or
    its user. *)
Theorem FixedOperandList_reads_back
    (sizeof_Operand : Z) (N : nat) (Buffer user : Z)
    (args : list SILValue.t) (H : Store) :
  0 < sizeof_Operand -> well_linked H -> 0 < Buffer ->
  (forall i : nat, (i < N)%nat ->
     operands H !! (Buffer + sizeof_Operand * Z.of_nat i) = None) ->
  Forall (fun v => is_Some (deref (values H) (SILValue.getDef v))) args ->
  length args = N ->
  exists H',
    FixedOperandList.ctor sizeof_Operand N Buffer user args H = Some H'
    /\ well_linked H'
    /\ OperandValueArrayRef.elements sizeof_Operand H'
         (FixedOperandList.asValueArray N Buffer) = Some args
    /\ (forall (i : nat) v, args !! i = Some v ->
          exists p,
            FixedOperandList.index sizeof_Operand N Buffer (Z.of_nat i)
            = Some p
            /\ Operand.get H' p = Some v
            /\ Operand.getUser H' p = Some user)
    /\ (forall q,
          (forall i : nat, (i < N)%nat ->
             q <> Buffer + sizeof_Operand * Z.of_nat i) ->
          Operand.get H' q = Operand.get H q
          /\ Operand.getUser H' q = Operand.getUser H q).
Proof.
  intros Hsz Hwl Hbuf Hfresh Hlive Hlen. subst N.
  destruct (slots_construct sizeof_Operand Buffer user args H
              Hsz Hwl Hbuf Hfresh Hlive) as (H' & Hrun & Hwl' & Hrb & Hoth).
  exists H'. unfold FixedOperandList.ctor.
  destruct (decide (length args = length args)) as [_|]; [|congruence].
  split; [exact Hrun|]. split; [exact Hwl'|]. split; [|split].
  - unfold OperandValueArrayRef.elements, FixedOperandList.asValueArray,
      FixedOperandList.asArray, OperandValueArrayRef.begin,
      OperandValueArrayRef.end_, ArrayRef.begin, ArrayRef.end_.
    cbn [ArrayRef.Data ArrayRef.Length]. rewrite Nat2Z.id.
    apply ovar_range_total; [exact Hsz | | lia].
    intros i v Hi. apply (Hrb i v Hi).
  - intros i v Hi. pose proof (lookup_lt_Some _ _ _ Hi) as Hlt.
    exists (Buffer + sizeof_Operand * Z.of_nat i).
    unfold FixedOperandList.index, FixedOperandList.asArray, ArrayRef.index.
    cbn [ArrayRef.Data ArrayRef.Length].
    destruct (Z.ltb_spec (Z.of_nat i) (Z.of_nat (length args))) as [_|];
      [|lia].
    split; [reflexivity|]. apply (Hrb i v Hi).
  - exact Hoth.
Qed.

Lemma FixedOperandList_reads_back_witness :
  exists H',
    FixedOperandList.ctor 32 2 8192 512 [V_0; V_1] store_V = Some H'
    /\ OperandValueArrayRef.elements 32 H'
         (FixedOperandList.asValueArray 2 8192) = Some [V_0; V_1].
Proof.
  destruct (FixedOperandList_reads_back 32 2 8192 512 [V_0; V_1] store_V)
    as (H' & Hc & _ & He & _).
  - lia.
  - unfold well_linked. refine (bool_decide_unpack _ _). vm_compute. exact I.
  - lia.
  - intros i Hi. reflexivity.
  - repeat constructor; eexists; reflexivity.
  - reflexivity.
  - exists H'. split; [exact Hc | exact He].
Defined.

(** Both constructors of the tail-allocated list are one run over the
    fixed initialisers followed by the dynamic ones. *)
Lemma TailAllocatedOperands_ctor_run
    (sz : Z) (N : nat) (buf user : Z) (dyn fixed : list SILValue.t)
    (H : Store) :
  length fixed = N ->
  TailAllocatedOperands.ctor sz N buf user dyn fixed H
  = (H' ← construct_all (slots sz buf user (fixed ++ dyn)) H;
     Some (TailAllocatedOperands.Build
             (wrap_unsigned (Z.of_nat (length dyn))) buf, H')).
Proof.
  intros Hlen. rewrite slots_app, construct_all_app, Hlen.
  destruct N as [|N'].
  - destruct fixed; [|discriminate]. simpl.
    unfold TailAllocatedOperands.ctor_0.
    replace (buf + sz * Z.of_nat 0) with buf by lia. reflexivity.
  - simpl. unfold TailAllocatedOperands.ctor_primary.
    destruct (decide (length fixed = S N')) as [_|]; [|congruence].
    destruct (construct_all (slots sz buf user fixed) H) as [H1|];
      [|reflexivity].
    simpl. reflexivity.
Qed.

(** X17: a tail-allocated operand list constructed in fresh storage with
    live targets runs to its end and keeps the links sound; [NumExtra] is
    the number of dynamic initialisers, the full array holds
    [N + NumExtra] operands and the dynamic array [NumExtra]; the full
    value array reads back the fixed initialisers followed by the dynamic
    ones, the dynamic value array the dynamic ones, and every operand's
    user is the list's user. *)
Theorem TailAllocatedOperands_reads_back
    (sizeof_Operand : Z) (N : nat) (buf user : Z)
    (dyn fixed : list SILValue.t) (H : Store) :
  0 < sizeof_Operand -> well_linked H -> 0 < buf ->
  (forall i : nat, (i < N + length dyn)%nat ->
     operands H !! (buf + sizeof_Operand * Z.of_nat i) = None) ->
  Forall (fun v => is_Some (deref (values H) (SILValue.getDef v)))
    (fixed ++ dyn) ->
  length fixed = N ->
  Z.of_nat (N + length dyn) < 2 ^ unsigned_bits ->
  exists l H',
    TailAllocatedOperands.ctor sizeof_Operand N buf user dyn fixed H
    = Some (l, H')
    /\ well_linked H'
    /\ TailAllocatedOperands.NumExtra l = Z.of_nat (length dyn)
    /\ TailAllocatedOperands.Buffer l = buf
    /\ ArrayRef.size (TailAllocatedOperands.asArray N l)
       = Z.of_nat (N + length dyn)
    /\ ArrayRef.size
         (TailAllocatedOperands.getDynamicAsArray sizeof_Operand N l)
       = Z.of_nat (length dyn)
    /\ OperandValueArrayRef.elements sizeof_Operand H'
         (TailAllocatedOperands.asValueArray N l) = Some (fixed ++ dyn)
    /\ OperandValueArrayRef.elements sizeof_Operand H'
         (TailAllocatedOperands.getDynamicValuesAsArray sizeof_Operand N l)
       = Some dyn
    /\ (forall (i : nat) v, (fixed ++ dyn) !! i = Some v ->
          exists p,
            TailAllocatedOperands.index sizeof_Operand N l (Z.of_nat i)
            = Some p
            /\ Operand.get H' p = Some v
            /\ Operand.getUser H' p = Some user).
Proof.
  intros Hsz Hwl Hbuf Hfresh Hlive Hlen Hfit.
  destruct (slots_construct sizeof_Operand buf user (fixed ++ dyn) H
              Hsz Hwl Hbuf) as (H' & Hrun & Hwl' & Hrb & _).
  { intros i Hi. apply Hfresh. rewrite length_app in Hi. lia. }
  { exact Hlive. }
  rewrite (TailAllocatedOperands_ctor_run _ _ _ _ _ _ _ Hlen), Hrun.
  cbn [mbind option_bind].
  assert (Hne : wrap_unsigned (Z.of_nat (length dyn)) = Z.of_nat (length dyn)).
  { unfold wrap_unsigned. apply Z.mod_small. lia. }
  rewrite Hne.
  set (l := TailAllocatedOperands.Build (Z.of_nat (length dyn)) buf).
  assert (Hfull : TailAllocatedOperands.asArray N l
                  = ArrayRef.Build buf (Z.of_nat (N + length dyn))).
  { unfold TailAllocatedOperands.asArray, l. destruct N as [|N'].
    - reflexivity.
    - cbn [TailAllocatedOperands.Buffer TailAllocatedOperands.NumExtra].
      f_equal. unfold wrap_unsigned. rewrite Z.mod_small by lia. lia. }
  assert (Hdyn : TailAllocatedOperands.getDynamicAsArray sizeof_Operand N l
                 = ArrayRef.Build (buf + sizeof_Operand * Z.of_nat N)
                     (Z.of_nat (length dyn))).
  { unfold TailAllocatedOperands.getDynamicAsArray, l. destruct N as [|N'].
    - cbn [TailAllocatedOperands.Buffer TailAllocatedOperands.NumExtra].
      f_equal. lia.
    - reflexivity. }
  exists l, H'. split; [reflexivity|]. split; [exact Hwl'|].
  split; [reflexivity|]. split; [reflexivity|].
  unfold TailAllocatedOperands.asValueArray,
    TailAllocatedOperands.getDynamicValuesAsArray,
    TailAllocatedOperands.index.
  rewrite Hfull, Hdyn.
  split; [reflexivity|]. split; [reflexivity|].
  unfold OperandValueArrayRef.elements, OperandValueArrayRef.begin,
    OperandValueArrayRef.end_, ArrayRef.begin, ArrayRef.end_.
  cbn [ArrayRef.Data ArrayRef.Length]. rewrite !Nat2Z.id.
  split; [|split].
  - replace (N + length dyn)%nat with (length (fixed ++ dyn))
      by (rewrite length_app; lia).
    apply ovar_range_total; [exact Hsz | | lia].
    intros i v Hi. apply (Hrb i v Hi).
  - apply ovar_range_total; [exact Hsz | | lia].
    intros i v Hi.
    replace (buf + sizeof_Operand * Z.of_nat N + sizeof_Operand * Z.of_nat i)
      with (buf + sizeof_Operand * Z.of_nat (N + i)) by lia.
    apply (Hrb (N + i)%nat v).
    rewrite lookup_app_r by lia. rewrite Hlen.
    replace (N + i - N)%nat with i by lia. exact Hi.
  - intros i v Hi. pose proof (lookup_lt_Some _ _ _ Hi) as Hlt.
    rewrite length_app in Hlt.
    exists (buf + sizeof_Operand * Z.of_nat i).
    unfold ArrayRef.index. cbn [ArrayRef.Data ArrayRef.Length].
    destruct (Z.ltb_spec (Z.of_nat i) (Z.of_nat (N + length dyn))) as [_|];
      [|lia].
    split; [reflexivity|]. apply (Hrb i v Hi).
Qed.

Lemma TailAllocatedOperands_reads_back_witness :
  exists l H',
    TailAllocatedOperands.ctor 32 1 8192 512 [V_1; W_0] [V_0] store_VW
    = Some (l, H')
    /\ OperandValueArrayRef.elements 32 H'
         (TailAllocatedOperands.asValueArray 1 l) = Some [V_0; V_1; W_0]
    /\ OperandValueArrayRef.elements 32 H'
         (TailAllocatedOperands.getDynamicValuesAsArray 32 1 l)
       = Some [V_1; W_0].
Proof.
  destruct (TailAllocatedOperands_reads_back 32 1 8192 512 [V_1; W_0] [V_0]
              store_VW)
    as (l & H' & Hc & _ & _ & _ & _ & _ & Hfull & Hdyn & _).
  - lia.
  - unfold well_linked. refine (bool_decide_unpack _ _). vm_compute. exact I.
  - lia.
  - intros i Hi. reflexivity.
  - repeat constructor; eexists; reflexivity.
  - reflexivity.
  - unfold unsigned_bits. simpl. lia.
  - exists l, H'. split; [exact Hc|]. split; [exact Hfull | exact Hdyn].
Defined.

(** X18: the operands of a tail-allocated list lie within the list's own
    [Buffer] followed by the extra bytes [getExtraSize] asks for: every
    indexed operand starts at or after [Buffer] and ends at or before the
    end of that storage, and the full array ends exactly there unless the
    list has no operand at all. *)
Theorem TailAllocatedOperands_storage_fits
    (sizeof_Operand : Z) (N : nat) (l : TailAllocatedOperands.t) :
  0 < sizeof_Operand < 2 ^ unsigned_bits ->
  0 <= TailAllocatedOperands.NumExtra l ->
  Z.of_nat N + TailAllocatedOperands.NumExtra l < 2 ^ unsigned_bits ->
  (forall i p,
     0 <= i ->
     TailAllocatedOperands.index sizeof_Operand N l i = Some p ->
     TailAllocatedOperands.Buffer l <= p
     /\ p + sizeof_Operand
        <= TailAllocatedOperands.Buffer l
           + TailAllocatedOperandList.sizeof_Buffer sizeof_Operand N
           + TailAllocatedOperandList.getExtraSize sizeof_Operand N
               (TailAllocatedOperands.NumExtra l))
  /\ (0 < Z.of_nat N + TailAllocatedOperands.NumExtra l ->
      ArrayRef.end_ sizeof_Operand (TailAllocatedOperands.asArray N l)
      = TailAllocatedOperands.Buffer l
        + TailAllocatedOperandList.sizeof_Buffer sizeof_Operand N
        + TailAllocatedOperandList.getExtraSize sizeof_Operand N
            (TailAllocatedOperands.NumExtra l)).
Proof.
  intros Hsz Hk Hfit. destruct l as [k buf].
  cbn [TailAllocatedOperands.NumExtra TailAllocatedOperands.Buffer] in *.
  unfold unsigned_bits in *.
  assert (Hextra :
    TailAllocatedOperandList.sizeof_Buffer sizeof_Operand N
    + TailAllocatedOperandList.getExtraSize sizeof_Operand N k
    = sizeof_Operand * (if (N =? 0)%nat && (k =? 0) then 1
                        else Z.of_nat N + k)).
  { destruct N as [|N'].
    - simpl. unfold TailAllocatedOperandList.getExtraSize_0, wrap_size,
        wrap_unsigned, uintptr_bits, unsigned_bits.
      destruct (Z.ltb_spec 0 k) as [Hpos|Hz].
      + rewrite (Z.mod_small (k - 1)) by lia.
        rewrite Z.mod_small by nia.
        destruct (Z.eqb_spec k 0); [lia|]. lia.
      + assert (k = 0) by lia. subst k. simpl.
        rewrite Z.mul_0_r, Z.mod_0_l by lia. lia.
    - cbn [TailAllocatedOperandList.sizeof_Buffer
           TailAllocatedOperandList.getExtraSize Nat.eqb andb].
      unfold TailAllocatedOperandList.getExtraSize_primary, wrap_size,
        uintptr_bits.
      rewrite Z.mod_small by nia. lia. }
  assert (Hlen : ArrayRef.Length (TailAllocatedOperands.asArray N
                    (TailAllocatedOperands.Build k buf)) = Z.of_nat N + k).
  { destruct N as [|N']; simpl; [lia|].
    unfold wrap_unsigned, unsigned_bits. apply Z.mod_small. lia. }
  assert (Hdata : ArrayRef.Data (TailAllocatedOperands.asArray N
                     (TailAllocatedOperands.Build k buf)) = buf)
    by (destruct N; reflexivity).
  split.
  - intros i p Hi. unfold TailAllocatedOperands.index, ArrayRef.index.
    rewrite Hlen, Hdata.
    destruct (Z.ltb_spec i (Z.of_nat N + k)) as [Hlt|]; [|discriminate].
    intros [= <-]. revert Hextra.
    generalize (TailAllocatedOperandList.sizeof_Buffer sizeof_Operand N)
               (TailAllocatedOperandList.getExtraSize sizeof_Operand N k).
    intros B E Hextra.
    assert (Hmul : sizeof_Operand * (i + 1)
                   <= sizeof_Operand * (Z.of_nat N + k))
      by (apply Z.mul_le_mono_nonneg_l; lia).
    assert (Hpos : 0 <= sizeof_Operand * i) by (apply Z.mul_nonneg_nonneg; lia).
    destruct ((N =? 0)%nat && (k =? 0)) eqn:Ez.
    + apply andb_true_iff in Ez as [EN Ek].
      apply Nat.eqb_eq in EN. apply Z.eqb_eq in Ek. lia.
    + lia.
  - intros Hpos. unfold ArrayRef.end_. rewrite Hlen, Hdata.
    revert Hextra.
    generalize (TailAllocatedOperandList.sizeof_Buffer sizeof_Operand N)
               (TailAllocatedOperandList.getExtraSize sizeof_Operand N k).
    intros B E Hextra.
    destruct (Nat.eqb_spec N 0) as [->|HN]; simpl in Hextra.
    + destruct (Z.eqb_spec k 0); simpl in *; lia.
    + lia.
Qed.

Lemma TailAllocatedOperands_storage_fits_witness :
  ArrayRef.end_ 32
    (TailAllocatedOperands.asArray 0 (TailAllocatedOperands.Build 3 8192))
  = 8192 + TailAllocatedOperandList.sizeof_Buffer 32 0
    + TailAllocatedOperandList.getExtraSize 32 0 3.
Proof.
  apply (proj2 (TailAllocatedOperands_storage_fits 32 0
                  (TailAllocatedOperands.Build 3 8192)
                  ltac:(unfold unsigned_bits; lia) ltac:(simpl; lia)
                  ltac:(unfold unsigned_bits; simpl; lia))).
  simpl. lia.
Defined.
